(** * responsive-rsc: the search-parameter coordinator, the pending store
      and the cache-and-suspend gate

    A shallow embedding of [src/lib.tsx] (the array-aware revision, the one
    that exports [isRSCPending]) and of [src/store.ts].

    Modelling conventions.
    - A JavaScript string is a [string]: a sequence of code units, here
      restricted to the range 0..255.  [String.compare] is then the
      code-unit order that [Array.prototype.sort] uses by default.
    - A [SearchParams] object is the list of its own properties in
      enumeration order, without repeated keys ([wf]).  Reading [o[key]]
      goes on to [Object.prototype] when [o] has no such property
      ([read]); where the code only reads keys it took from the object
      itself, the own read [get] is used.  Assigning under the name
      [__proto__] adds no own property ([put]); a list assigned there
      would become the prototype of the delta, which the model does not
      follow, so a statement that reads the delta through its prototype
      takes a new map without that key.  Integer-like keys are kept in
      insertion order like the others (JavaScript lists them first);
      lookups are the same and no statement rests on their order.
    - The browser, the router and React are collaborators: what the code
      reads from them is an input ([Browser]), what it asks of them is
      recorded ([pushed], [replaced], [rerender], [resolved]).  React is
      React 19: an error thrown by the callback of a transition is kept by
      the transition and thrown again by [useTransition] when the provider
      next renders. *)

From Stdlib Require Import String Ascii NArith List Permutation Sorted.
From stdpp Require Import base decidable option list sorting gmap strings.

Local Open Scope string_scope.

(* ===================================================================== *)
(** ** JavaScript values of type [string | string[] | undefined]          *)
(* ===================================================================== *)

Module Js.

Inductive ParamValue : Type :=
| Undefined
| Str (s : string)
| Arr (vs : list string).

#[global] Instance ParamValue_eq_dec : EqDecision ParamValue.
Proof. solve_decision. Defined.

(** [ToBoolean]: [undefined] and the empty string are falsy, every array
    (also the empty one) is truthy. *)
Definition truthy (v : ParamValue) : bool :=
  match v with
  | Undefined => false
  | Str "" => false
  | Str _ => true
  | Arr _ => true
  end.

(** [Array.prototype.join(",")], which is what [toString] of an array is. *)
Definition join (sep : string) (parts : list string) : string :=
  String.concat sep parts.

(** [String(v)], as a template literal converts its holes. *)
Definition toString (v : ParamValue) : string :=
  match v with
  | Undefined => "undefined"
  | Str s => s
  | Arr vs => join "," vs
  end.

(** [v?.toString()]: [undefined] short-circuits. *)
Definition optToString (v : ParamValue) : option string :=
  match v with
  | Undefined => None
  | _ => Some (toString v)
  end.

(** *** Objects used as records *)

Definition SearchParams : Type := list (string * ParamValue).

(** [Object.keys(o)] *)
Definition keys (o : SearchParams) : list string := map fst o.

Definition wf (o : SearchParams) : Prop := NoDup (keys o).

(** [o[key]]: a missing property reads as [undefined]. *)
Fixpoint get (o : SearchParams) (key : string) : ParamValue :=
  match o with
  | [] => Undefined
  | (k, v) :: rest => if String.eqb k key then v else get rest key
  end.

(** [key in o] for own properties *)
Definition has (o : SearchParams) (key : string) : bool :=
  existsb (String.eqb key) (keys o).

(** The members every object literal inherits from [Object.prototype],
    each with the text that converting it to a string gives (native
    functions as V8 prints them; [__proto__] reads as [Object.prototype]
    itself). *)
Definition nativeFunction (name : string) : string :=
  "function " +:+ name +:+ "() { [native code] }".

Definition prototypeMember (key : string) : option string :=
  if String.eqb key "constructor" then Some (nativeFunction "Object")
  else if String.eqb key "__proto__" then Some "[object Object]"
  else if existsb (String.eqb key)
            ["toString"; "toLocaleString"; "valueOf"; "hasOwnProperty";
             "isPrototypeOf"; "propertyIsEnumerable"; "__defineGetter__";
             "__defineSetter__"; "__lookupGetter__"; "__lookupSetter__"]
       then Some (nativeFunction key)
  else None.

(** What [o[key]] gives for an arbitrary key: the own property, else the
    member of [Object.prototype] of that name, else [undefined]. *)
Inductive Read : Type :=
| Plain (v : ParamValue)
| Member (text : string).

#[global] Instance Read_eq_dec : EqDecision Read.
Proof. solve_decision. Defined.

Definition read (o : SearchParams) (key : string) : Read :=
  if has o key then Plain (get o key)
  else match prototypeMember key with
       | Some text => Member text
       | None => Plain Undefined
       end.

(** Functions and objects are truthy. *)
Definition readTruthy (r : Read) : bool :=
  match r with Plain v => truthy v | Member _ => true end.

Definition readToString (r : Read) : string :=
  match r with Plain v => toString v | Member text => text end.

Definition readOptToString (r : Read) : option string :=
  match r with Plain v => optToString v | Member text => Some text end.

(** [o[key] = v]: an existing property keeps its place, a new one is
    added last. *)
Fixpoint assign (o : SearchParams) (key : string) (v : ParamValue)
  : SearchParams :=
  match o with
  | [] => [(key, v)]
  | (k, x) :: rest =>
      if String.eqb k key then (k, v) :: rest
      else (k, x) :: assign rest key v
  end.

(** [o[key] = v] as the loop that fills the delta performs it, on an
    object literal that never has an own [__proto__]: under that name the
    assignment reaches the setter inherited from [Object.prototype] and
    adds no property (a string or [undefined] is ignored; a list would
    become the prototype, which the own properties do not show). *)
Definition put (o : SearchParams) (key : string) (v : ParamValue)
  : SearchParams :=
  if String.eqb key "__proto__" then o else assign o key v.

(** Copying the own properties of [src] onto [dst], in order:
    one [...src] inside an object literal. *)
Definition copyInto (dst src : SearchParams) : SearchParams :=
  fold_left (fun acc kv => assign acc (fst kv) (snd kv)) src dst.

(** [{ ...a, ...b }] where [b] may be [undefined] (spreading
    [undefined] copies nothing). *)
Definition spread (a : SearchParams) (b : option SearchParams)
  : SearchParams :=
  copyInto (copyInto [] a) (default [] b).

(** The default order of [Array.prototype.sort] on strings. *)
Definition str_le (a b : string) : Prop := String.leb a b = true.

#[global] Instance str_le_dec (a b : string) : Decision (str_le a b).
Proof. unfold str_le. apply _. Defined.

(** [keys.sort()].  The engine's algorithm is its own business; on keys
    without repetition the result is the one sorted arrangement. *)
Definition sort (l : list string) : list string := merge_sort str_le l.

End Js.

(* ===================================================================== *)
(** ** [URLSearchParams]                                                  *)
(* ===================================================================== *)

Module Url.

(** The name/value list of a [URLSearchParams] object. *)
Definition UrlSearchParams : Type := list (string * string).

Definition append (l : UrlSearchParams) (name value : string)
  : UrlSearchParams :=
  (l ++ [(name, value)])%list.

(** [set]: the first pair called [name] receives the value and the other
    pairs of that name are removed; without such a pair, [append]. *)
Fixpoint set (l : UrlSearchParams) (name value : string)
  : UrlSearchParams :=
  match l with
  | [] => [(name, value)]
  | (n, x) :: rest =>
      if String.eqb n name
      then (n, value)
             :: List.filter (fun p => negb (String.eqb (fst p) name)) rest
      else (n, x) :: set rest name value
  end.

Definition hexDigit (d : N) : ascii :=
  if (d <? 10)%N then ascii_of_N (48 + d) else ascii_of_N (55 + d).

(** [%XX] with upper-case digits *)
Definition pct (byte : N) : string :=
  String "%" (String (hexDigit (byte / 16)) (String (hexDigit (byte mod 16)) "")).

(** Code units the application/x-www-form-urlencoded serializer leaves
    alone: ASCII letters and digits and [* - . _]. *)
Definition unreserved (n : N) : bool :=
  ((48 <=? n) && (n <=? 57) || (65 <=? n) && (n <=? 90)
   || (97 <=? n) && (n <=? 122)
   || (n =? 42) || (n =? 45) || (n =? 46) || (n =? 95))%N.

(** One code unit: a space becomes [+], a code unit from 128 up is
    written as the two bytes of its UTF-8 form. *)
Definition encodeUnit (c : ascii) : string :=
  let n := N_of_ascii c in
  if (n =? 32)%N then "+"
  else if unreserved n then String c ""
  else if (n <? 128)%N then pct n
  else pct (192 + n / 64) +:+ pct (128 + n mod 64).

Fixpoint encode (s : string) : string :=
  match s with
  | EmptyString => ""
  | String c rest => encodeUnit c +:+ encode rest
  end.

Definition encodePair (p : string * string) : string :=
  encode (fst p) +:+ "=" +:+ encode (snd p).

(** [urlSearchParams.toString()] *)
Definition toString (l : UrlSearchParams) : string :=
  Js.join "&" (map encodePair l).

End Url.

(* ===================================================================== *)
(** ** Internals of [lib.tsx]: the two canonical strings                   *)
(* ===================================================================== *)

Import Js.

(** The body of the [for (const key of keys)] loop of
    [stringifySearchParams]. *)
Definition stringifyStep (params : SearchParams)
    (urlSearchParams : Url.UrlSearchParams) (key : string)
  : Url.UrlSearchParams :=
  let val := get params key in
  if truthy val then
    match val with
    | Arr vs => fold_left (fun u v => Url.append u key v) vs urlSearchParams
    | Str s => Url.set urlSearchParams key s
    | Undefined => urlSearchParams
    end
  else urlSearchParams.

(** The [URLSearchParams] object at the end of [stringifySearchParams];
    [search] is what [new URLSearchParams(window.location.search)] holds. *)
Definition stringifyEntries (search : Url.UrlSearchParams)
    (params : SearchParams) : Url.UrlSearchParams :=
  fold_left (stringifyStep params) (sort (keys params)) search.

Definition stringifySearchParams (search : Url.UrlSearchParams)
    (params : SearchParams) : string :=
  Url.toString (stringifyEntries search params).

(** [useCacheKey]: filter, map and join over the declared list; a
    declared name need not be a key of the merged map. *)
Definition cacheKeyPairs (responsiveSearchParams : SearchParams)
    (searchParamsUsed : list string) : list (string * Read) :=
  map (fun key => (key, read responsiveSearchParams key))
      (List.filter (fun key => readTruthy (read responsiveSearchParams key))
                   searchParamsUsed).

(** The template literal [`${key}=${value}`] *)
Definition showRead (p : string * Read) : string :=
  fst p +:+ "=" +:+ readToString (snd p).

Definition showPair (p : string * ParamValue) : string :=
  fst p +:+ "=" +:+ toString (snd p).

Definition useCacheKey (responsiveSearchParams : SearchParams)
    (searchParamsUsed : list string) : string :=
  join "&" (map showRead (cacheKeyPairs responsiveSearchParams searchParamsUsed)).

(** [useIsSearchParamsPending], given what [useStore] returned: the
    delta object, or [None] for [undefined]. *)
Definition useIsSearchParamsPending (pendingSearchParams : option SearchParams)
    (searchParamNames : list string) : bool :=
  match pendingSearchParams with
  | None => false
  | Some pending =>
      existsb (fun key => readTruthy (read pending key)) searchParamNames
  end.

(** The [for (const key in newSearchParams)] loop of the setter.  [key] is
    a key of [newSearchParams], so that side is an own read; the merged
    map need not have the key. *)
Definition pendingStep (newSearchParams responsiveSearchParams : SearchParams)
    (_pendingSearchParams : SearchParams) (key : string) : SearchParams :=
  if decide (optToString (get newSearchParams key)
             = readOptToString (read responsiveSearchParams key))
  then _pendingSearchParams
  else put _pendingSearchParams key (get newSearchParams key).

Definition computePending (newSearchParams responsiveSearchParams : SearchParams)
  : SearchParams :=
  fold_left (pendingStep newSearchParams responsiveSearchParams)
            (keys newSearchParams) [].

(* ===================================================================== *)
(** ** [store.ts]: [createStore]                                          *)
(* ===================================================================== *)

Module Store.
Section createStore.

(** [T] is the type of the stored value, [L] names the listeners and [W]
    is whatever the listeners act on.  [same] is [===] on [T].
    [call l v w] runs listener [l] when [getValue()] is [v]: it gives the
    new [W] and tells whether the listener called its own unsubscribe
    function.  Listeners that write to the store they listen to, or that
    remove other listeners, are not covered; this program has none. *)
Context {T L W : Type} `{EqDecision L}.
Variable same : T -> T -> bool.
Variable call : L -> T -> W -> W * bool.

(** The closure variables [value] and [listeners]; the [Set] of listeners
    is kept in insertion order. *)
Record State : Type := mk { value : T; listeners : list L }.

Definition createStore (initialValue : T) : State :=
  {| value := initialValue; listeners := [] |}.

Definition getValue (s : State) : T := value s.

(** [listeners.add(listener)] *)
Definition subscribe (listener : L) (s : State) : State :=
  if decide (listener ∈ listeners s) then s
  else {| value := value s; listeners := (listeners s ++ [listener])%list |}.

(** [listeners.delete(listener)], the function [subscribe] returns *)
Definition unsubscribe (listener : L) (s : State) : State :=
  {| value := value s;
     listeners := List.filter (fun l => bool_decide (l ≠ listener)) (listeners s) |}.

(** [for (const listener of listeners) listener()]: the iteration is
    live, an entry deleted before its turn is not visited. *)
Fixpoint notifyLoop (todo : list L) (s : State) (w : W) : State * W :=
  match todo with
  | [] => (s, w)
  | listener :: rest =>
      if decide (listener ∈ listeners s) then
        let '(w', unsubscribed) := call listener (getValue s) w in
        notifyLoop rest (if unsubscribed then unsubscribe listener s else s) w'
      else notifyLoop rest s w
  end.

Definition notify (s : State) (w : W) : State * W :=
  notifyLoop (listeners s) s w.

Definition setValue (newValue : T) (s : State) (w : W) : State * W :=
  if same newValue (value s) then (s, w)
  else notify {| value := newValue; listeners := listeners s |} w.

(** What the claim about [setValue] promises: every listener runs once,
    in order, seeing [v]; those that unsubscribed are gone. *)
Fixpoint callEach (ls : list L) (v : T) (w : W) : list L * W :=
  match ls with
  | [] => ([], w)
  | l :: rest =>
      let '(w', unsubscribed) := call l v w in
      let '(kept, w'') := callEach rest v w' in
      (if unsubscribed then kept else l :: kept, w'')
  end.

End createStore.
Arguments State : clear implicits.
End Store.

(* ===================================================================== *)
(** ** The module-level store and its listeners                           *)
(* ===================================================================== *)

(** A delta object with its identity: [===] on objects compares [addr]. *)
Record PendingObject : Type := { addr : nat; fields : SearchParams }.

(** [SearchParams | undefined] *)
Definition Pending : Type := option PendingObject.

Definition strictEq (a b : Pending) : bool :=
  match a, b with
  | None, None => true
  | Some x, Some y => Nat.eqb (addr x) (addr y)
  | _, _ => false
  end.

(** The two kinds of function ever passed to
    [pendingSearchParamsStore.subscribe]. *)
Inductive Listener : Type :=
| StoreChange (component : nat)
    (** registered by [useSyncExternalStore] for a component calling [useStore] *)
| Waker (promise : nat)
    (** registered by the executor of the promise [CacheRSC] throws *).

#[global] Instance Listener_eq_dec : EqDecision Listener.
Proof. solve_decision. Defined.

(** React's side: promises resolved so far, re-renders asked for. *)
Record Scheduler : Type := { resolved : list nat; rerender : list nat }.

Definition callListener (l : Listener) (val : Pending) (r : Scheduler)
  : Scheduler * bool :=
  match l with
  | StoreChange c =>
      ({| resolved := resolved r; rerender := (rerender r ++ [c])%list |}, false)
  | Waker p =>
      match val with
      | None =>
          ({| resolved := (resolved r ++ [p])%list; rerender := rerender r |}, true)
      | Some _ => (r, false)
      end
  end.

Abbreviation PendingStore := (Store.State Pending Listener).

Definition storeSetValue (v : Pending) (s : PendingStore) (r : Scheduler)
  : PendingStore * Scheduler :=
  Store.setValue strictEq callListener v s r.

(* ===================================================================== *)
(** ** [ResponsiveSearchParamsProvider]                                   *)
(* ===================================================================== *)

(** What the setter reads from its surroundings when it is called. *)
Record Browser : Type := {
  pathname : string;                 (** [usePathname()] *)
  search : Url.UrlSearchParams;      (** [new URLSearchParams(window.location.search)] *)
  replaceRaises : bool               (** whether [router.replace] throws this time *)
}.

(** One mounted provider, the module-level store, and the record of what
    was asked of the browser, the router and React. *)
Record World : Type := {
  pageSearchParams : SearchParams;              (** [props.value] *)
  searchParamsOverride : option SearchParams;   (** [useState] *)
  visitedSearchParams : gset string;            (** [visitedSearchParamsRef.current] *)
  isRoutePending : bool;                        (** [useTransition] *)
  pendingSearchParamsStore : PendingStore;
  react : Scheduler;
  nextAddr : nat;                               (** identity of the next object literal *)
  nextPromise : nat;                            (** identity of the next promise *)
  pushed : list string;                         (** [window.history.pushState] calls *)
  replaced : list string;                       (** [router.replace] calls *)
  transitionThrew : bool                        (** the callback of the last transition threw *)
}.

Definition mount (value : SearchParams) : World :=
  {| pageSearchParams := value; searchParamsOverride := None;
     visitedSearchParams := ∅; isRoutePending := false;
     pendingSearchParamsStore := Store.createStore None;
     react := {| resolved := []; rerender := [] |};
     nextAddr := 0; nextPromise := 0; pushed := []; replaced := [];
     transitionThrew := false |}.

(** [{ ...pageSearchParams, ...searchParamsOverride }] *)
Definition responsiveSearchParams (w : World) : SearchParams :=
  spread (pageSearchParams w) (searchParamsOverride w).

(** [React.SetStateAction<SearchParams>] *)
Inductive SetStateAction : Type :=
| Value (newSearchParams : SearchParams)
| Updater (f : SearchParams -> SearchParams).

Definition resolveAction (a : SetStateAction) (current : SearchParams)
  : SearchParams :=
  match a with
  | Value v => v
  | Updater f => f current
  end.

Definition setSearchParamsOverride (v : SearchParams) (w : World) : World :=
  {| pageSearchParams := pageSearchParams w; searchParamsOverride := Some v;
     visitedSearchParams := visitedSearchParams w;
     isRoutePending := isRoutePending w;
     pendingSearchParamsStore := pendingSearchParamsStore w;
     react := react w; nextAddr := nextAddr w; nextPromise := nextPromise w;
     pushed := pushed w; replaced := replaced w;
     transitionThrew := transitionThrew w |}.

Definition pushState (url : string) (w : World) : World :=
  {| pageSearchParams := pageSearchParams w;
     searchParamsOverride := searchParamsOverride w;
     visitedSearchParams := visitedSearchParams w;
     isRoutePending := isRoutePending w;
     pendingSearchParamsStore := pendingSearchParamsStore w;
     react := react w; nextAddr := nextAddr w; nextPromise := nextPromise w;
     pushed := (pushed w ++ [url])%list; replaced := replaced w;
     transitionThrew := transitionThrew w |}.

Definition visit (key : string) (w : World) : World :=
  {| pageSearchParams := pageSearchParams w;
     searchParamsOverride := searchParamsOverride w;
     visitedSearchParams := {[ key ]} ∪ visitedSearchParams w;
     isRoutePending := isRoutePending w;
     pendingSearchParamsStore := pendingSearchParamsStore w;
     react := react w; nextAddr := nextAddr w; nextPromise := nextPromise w;
     pushed := pushed w; replaced := replaced w;
     transitionThrew := transitionThrew w |}.

(** [pendingSearchParamsStore.setValue(v)] *)
Definition publish (v : Pending) (w : World) : World :=
  let '(s, r) := storeSetValue v (pendingSearchParamsStore w) (react w) in
  {| pageSearchParams := pageSearchParams w;
     searchParamsOverride := searchParamsOverride w;
     visitedSearchParams := visitedSearchParams w;
     isRoutePending := isRoutePending w;
     pendingSearchParamsStore := s;
     react := r; nextAddr := nextAddr w; nextPromise := nextPromise w;
     pushed := pushed w; replaced := replaced w;
     transitionThrew := transitionThrew w |}.

(** The object literal [{}] that the loop then fills: a new identity. *)
Definition allocate (w : World) : World :=
  {| pageSearchParams := pageSearchParams w;
     searchParamsOverride := searchParamsOverride w;
     visitedSearchParams := visitedSearchParams w;
     isRoutePending := isRoutePending w;
     pendingSearchParamsStore := pendingSearchParamsStore w;
     react := react w; nextAddr := S (nextAddr w); nextPromise := nextPromise w;
     pushed := pushed w; replaced := replaced w;
     transitionThrew := transitionThrew w |}.

(** [startRouteTransition(() => router.replace(url, { scroll: false }))]:
    React marks the transition pending and runs the callback at once; when
    the callback throws, React catches the error and keeps it for the
    provider's next render. *)
Definition startRouteTransition (url : string) (raises : bool) (w : World)
  : World :=
  {| pageSearchParams := pageSearchParams w;
     searchParamsOverride := searchParamsOverride w;
     visitedSearchParams := visitedSearchParams w;
     isRoutePending := true;
     pendingSearchParamsStore := pendingSearchParamsStore w;
     react := react w; nextAddr := nextAddr w; nextPromise := nextPromise w;
     pushed := pushed w; replaced := (replaced w ++ [url])%list;
     transitionThrew := raises |}.

(** How a call of the setter ends: it returns, or it throws to its caller.
    Nothing the setter itself does throws, and an error of [router.replace]
    stays with the transition, so every call returns. *)
Inductive Completion : Type := Returned | Raised.

(** The setter as a closure: [captured] is the [responsiveSearchParams]
    of the render that made it ([useCallback] renews it when that value
    changes).  [setSearchParamsOverride] changes the state, not the
    value the closure holds. *)
Definition setResponsiveSearchParamsFrom (captured : SearchParams)
    (env : Browser) (newSearchParamsDispatch : SetStateAction) (w : World)
  : World * Completion :=
  let current := captured in
  let newSearchParams := resolveAction newSearchParamsDispatch current in
  let w1 := setSearchParamsOverride newSearchParams w in
  let searchParamsString := stringifySearchParams (search env) newSearchParams in
  if decide (searchParamsString ∈ visitedSearchParams w1) then
    (pushState (pathname env +:+ "?" +:+ searchParamsString) w1, Returned)
  else
    let w2 := visit searchParamsString w1 in
    let _pendingSearchParams :=
      {| addr := nextAddr w2;
         fields := computePending newSearchParams current |} in
    let w3 := publish (Some _pendingSearchParams) (allocate w2) in
    let url :=
      pathname env +:+
        (if String.eqb searchParamsString "" then ""
         else "?" +:+ searchParamsString) in
    (startRouteTransition url (replaceRaises env) w3, Returned).

(** The setter of the latest render, whose closure holds the merged
    parameters as they are now. *)
Definition setResponsiveSearchParams (env : Browser)
    (newSearchParamsDispatch : SetStateAction) (w : World)
  : World * Completion :=
  setResponsiveSearchParamsFrom (responsiveSearchParams w) env
    newSearchParamsDispatch w.

(** The effect [useEffect(..., [isRoutePending])], run with the value of
    [isRoutePending] of the render it belongs to. *)
Definition routePendingEffect (w : World) : World :=
  if isRoutePending w then w else publish None w.

(** The transition is over: [isRoutePending] turns false, the provider
    renders again and its effect runs. *)
Definition transitionSettled (w : World) : World :=
  routePendingEffect
    {| pageSearchParams := pageSearchParams w;
       searchParamsOverride := searchParamsOverride w;
       visitedSearchParams := visitedSearchParams w;
       isRoutePending := false;
       pendingSearchParamsStore := pendingSearchParamsStore w;
       react := react w; nextAddr := nextAddr w; nextPromise := nextPromise w;
       pushed := pushed w; replaced := replaced w;
     transitionThrew := transitionThrew w |}.


(** The page hands the provider a new [value]. *)
Definition pageProps (value : SearchParams) (w : World) : World :=
  {| pageSearchParams := value;
     searchParamsOverride := searchParamsOverride w;
     visitedSearchParams := visitedSearchParams w;
     isRoutePending := isRoutePending w;
     pendingSearchParamsStore := pendingSearchParamsStore w;
     react := react w; nextAddr := nextAddr w; nextPromise := nextPromise w;
     pushed := pushed w; replaced := replaced w;
     transitionThrew := transitionThrew w |}.

(* ===================================================================== *)
(** ** [ResponsiveSuspense] and [CacheRSC]                                *)
(* ===================================================================== *)

(** [React.ReactNode], as far as [if (cachedChildren)] can tell nodes
    apart; numbers are taken to be integers. *)
Inductive ReactNode : Type :=
| NodeUndefined
| NodeNull
| NodeBool (b : bool)
| NodeNumber (n : Z)
| NodeText (s : string)
| NodeElement (id : nat).

Definition nodeTruthy (n : ReactNode) : bool :=
  match n with
  | NodeUndefined | NodeNull => false
  | NodeBool b => b
  | NodeNumber n => negb (Z.eqb n 0)
  | NodeText s => negb (String.eqb s "")
  | NodeElement _ => true
  end.

Record CacheRSCProps : Type := {
  searchParamsUsed : list string;
  children : ReactNode;
  cacheKey : string;
  suspendOnTransition : bool;
  isPending : bool
}.

(** A render either throws a promise or returns a node. *)
Inductive Rendered : Type :=
| Throws (promise : nat)
| Returns (node : ReactNode).

(** [pendingSearchParamsStore.subscribe(listener)] *)
Definition storeSubscribe (l : Listener) (w : World) : World :=
  {| pageSearchParams := pageSearchParams w;
     searchParamsOverride := searchParamsOverride w;
     visitedSearchParams := visitedSearchParams w;
     isRoutePending := isRoutePending w;
     pendingSearchParamsStore := Store.subscribe l (pendingSearchParamsStore w);
     react := react w; nextAddr := nextAddr w; nextPromise := nextPromise w;
     pushed := pushed w; replaced := replaced w;
     transitionThrew := transitionThrew w |}.

(** [new Promise(executor)]: the executor runs at once and subscribes the
    waker of the new promise. *)
Definition newPromise (w : World) : nat * World :=
  let p := nextPromise w in
  let w' := storeSubscribe (Waker p) w in
  (p,
   {| pageSearchParams := pageSearchParams w';
      searchParamsOverride := searchParamsOverride w';
      visitedSearchParams := visitedSearchParams w';
      isRoutePending := isRoutePending w';
      pendingSearchParamsStore := pendingSearchParamsStore w';
      react := react w'; nextAddr := nextAddr w'; nextPromise := S p;
      pushed := pushed w'; replaced := replaced w';
      transitionThrew := transitionThrew w' |}).

(** [childrenCache] is the gate's [Map<string, React.ReactNode>]; a key
    that is missing reads as [undefined]. *)
Definition cacheGet (childrenCache : gmap string ReactNode) (key : string)
  : ReactNode :=
  default NodeUndefined (childrenCache !! key).

Definition CacheRSC (props : CacheRSCProps)
    (childrenCache : gmap string ReactNode) (w : World)
  : Rendered * gmap string ReactNode * World :=
  if isPending props && suspendOnTransition props then
    let '(p, w') := newPromise w in (Throws p, childrenCache, w')
  else
    let cachedChildren := cacheGet childrenCache (cacheKey props) in
    if nodeTruthy cachedChildren then (Returns cachedChildren, childrenCache, w)
    else if negb (isPending props) then
      (Returns (children props),
       <[ cacheKey props := children props ]> childrenCache, w)
    else (Returns (children props), childrenCache, w).

Record ResponsiveSuspenseProps : Type := {
  rsSearchParamsUsed : list string;
  rsChildren : ReactNode;
  rsSuspendOnTransition : option bool     (** an optional prop *)
}.

Definition ResponsiveSuspense (props : ResponsiveSuspenseProps)
    (childrenCache : gmap string ReactNode) (w : World)
  : Rendered * gmap string ReactNode * World :=
  let cacheKey :=
    useCacheKey (responsiveSearchParams w) (rsSearchParamsUsed props) in
  let isPending :=
    useIsSearchParamsPending
      (fields <$> Store.getValue (pendingSearchParamsStore w))
      (rsSearchParamsUsed props) in
  CacheRSC
    {| searchParamsUsed := rsSearchParamsUsed props;
       children := rsChildren props;
       cacheKey := cacheKey;
       suspendOnTransition := default true (rsSuspendOnTransition props);
       isPending := isPending |}
    childrenCache w.

(** *** The moves of the system *)

Inductive step : World -> World -> Prop :=
| step_set env action w :
    step w (fst (setResponsiveSearchParams env action w))
| step_set_stale captured env action w :
    step w (fst (setResponsiveSearchParamsFrom captured env action w))
| step_settled w :
    transitionThrew w = false ->
    step w (transitionSettled w)
| step_page value w :
    step w (pageProps value w)
| step_useStore component w :
    step w (storeSubscribe (StoreChange component) w)
| step_render props childrenCache w :
    step w (snd (ResponsiveSuspense props childrenCache w)).

Inductive reachable : World -> Prop :=
| reach_mount value : reachable (mount value)
| reach_step w w' : reachable w -> step w w' -> reachable w'.

(** *** What holds of every reachable world *)

Definition components (ls : list Listener) : list nat :=
  omap (fun l => match l with StoreChange c => Some c | Waker _ => None end) ls.

Definition wakers (ls : list Listener) : list nat :=
  omap (fun l => match l with Waker p => Some p | StoreChange _ => None end) ls.

Definition isStoreChange (l : Listener) : bool :=
  match l with StoreChange _ => true | Waker _ => false end.

Record inv (w : World) : Prop := {
  inv_set : NoDup (Store.listeners (pendingSearchParamsStore w));
  inv_addr : forall o,
    Store.value (pendingSearchParamsStore w) = Some o -> addr o < nextAddr w;
  inv_idle : Store.value (pendingSearchParamsStore w) = None ->
    forall p, Waker p ∉ Store.listeners (pendingSearchParamsStore w);
  inv_promise : forall p,
    Waker p ∈ Store.listeners (pendingSearchParamsStore w) -> p < nextPromise w;
  inv_waiting : forall p, p < nextPromise w ->
    p ∈ resolved (react w)
    \/ Waker p ∈ Store.listeners (pendingSearchParamsStore w)
}.

(** The comparison of the setter's loop,
    [newSearchParams[key]?.toString() !== responsiveSearchParams[key]?.toString()]. *)
Definition differs (newSearchParams responsiveSearchParams : SearchParams)
    (key : string) : Prop :=
  optToString (get newSearchParams key)
  <> readOptToString (read responsiveSearchParams key).

(** A key of the new map that the loop records in the delta. *)
Definition recorded (newSearchParams responsiveSearchParams : SearchParams)
    (key : string) : Prop :=
  differs newSearchParams responsiveSearchParams key /\ key <> "__proto__".

(** A value that is not a list. *)
Definition scalar (v : ParamValue) : bool :=
  match v with Arr _ => false | _ => true end.

(** The pairs of the cache key when every declared name is read as an
    own property. *)
Definition ownPairs (merged : SearchParams) (declared : list string)
  : list (string * ParamValue) :=
  map (fun key => (key, get merged key))
      (List.filter (fun key => truthy (get merged key)) declared).

(** The pairs of a URL query whose name is not a key of [params]. *)
Definition foreign (params : SearchParams) (p : string * string) : bool :=
  negb (has params (fst p)).

(** *** The cache key as the specification words it

    Filter the merged parameters to the declared list, drop the unset
    entries, sort by key name, join as [key=value]. *)
Definition pair_le (p q : string * ParamValue) : Prop := str_le (fst p) (fst q).

#[global] Instance pair_le_dec p q : Decision (pair_le p q).
Proof. unfold pair_le. apply _. Defined.

Definition specCacheKey (merged : SearchParams) (declared : list string)
  : string :=
  let filtered :=
    List.filter (fun p => bool_decide (fst p ∈ declared)) merged in
  let set_only :=
    List.filter (fun p => bool_decide (snd p ≠ Undefined)) filtered in
  join "&" (map showPair (merge_sort pair_le set_only)).

(** *** Notions used by the further properties *)

(** The pairs of a [URLSearchParams] list under one name
    ([urlSearchParams.getAll(name)], with the names kept). *)
Definition named (name : string) (l : Url.UrlSearchParams)
  : Url.UrlSearchParams :=
  List.filter (fun p => String.eqb (fst p) name) l.

(** What one parameter contributes to the query: nothing when it is falsy,
    one pair for a string, one pair per element for a list. *)
Definition paramPairs (params : SearchParams) (key : string)
  : Url.UrlSearchParams :=
  match get params key with
  | Undefined => []
  | Str s => if String.eqb s "" then [] else [(key, s)]
  | Arr vs => map (pair key) vs
  end.

(** A gate rendered again and again: each render has its props and the
    world it runs in; the cache is the gate's own. *)
Definition renderAll (renders : list (CacheRSCProps * World))
    (childrenCache : gmap string ReactNode) : gmap string ReactNode :=
  fold_left (fun cache r => snd (fst (CacheRSC (fst r) cache (snd r))))
            renders childrenCache.

(** Promises are resolved once: what holds of the resolved list in every
    reachable world. *)
Record resolvedOnce (w : World) : Prop := {
  once_known : forall p, p ∈ resolved (react w) -> p < nextPromise w;
  once_apart : forall p,
    Waker p ∈ Store.listeners (pendingSearchParamsStore w) ->
    p ∉ resolved (react w);
  once_nodup : NoDup (resolved (react w))
}.

(** *** The earlier revisions kept in the repository

    The scalar revision ([Record<string, string | undefined>]): the loop
    body of its [stringifySearchParams] is [urlSearchParams.set(key, val)]
    for every truthy value. *)
Definition stringifyStepScalar (params : SearchParams)
    (urlSearchParams : Url.UrlSearchParams) (key : string)
  : Url.UrlSearchParams :=
  let val := get params key in
  if truthy val then Url.set urlSearchParams key (toString val)
  else urlSearchParams.

Definition stringifySearchParamsScalar (search : Url.UrlSearchParams)
    (params : SearchParams) : string :=
  Url.toString (fold_left (stringifyStepScalar params) (sort (keys params)) search).

(** The scalar revision compares with [!==]; on strings and [undefined]
    that is equality of values (the revision has no list values), and an
    inherited member is identical to neither. *)
Definition pendingStepScalar (newSearchParams responsiveSearchParams : SearchParams)
    (_pendingSearchParams : SearchParams) (key : string) : SearchParams :=
  if decide (Plain (get newSearchParams key) = read responsiveSearchParams key)
  then _pendingSearchParams
  else put _pendingSearchParams key (get newSearchParams key).

Definition computePendingScalar
    (newSearchParams responsiveSearchParams : SearchParams) : SearchParams :=
  fold_left (pendingStepScalar newSearchParams responsiveSearchParams)
            (keys newSearchParams) [].

(** The first revision of [CacheRSC]: it reads the store itself, always
    suspends while pending and always stores on a miss. *)
Definition CacheRSCFirst (searchParamsUsed : list string)
    (children : ReactNode) (cacheKey : string)
    (childrenCache : gmap string ReactNode) (w : World)
  : Rendered * gmap string ReactNode * World :=
  let pendingSearchParams :=
    fields <$> Store.getValue (pendingSearchParamsStore w) in
  let isPending :=
    match pendingSearchParams with
    | None => false
    | Some pending =>
        existsb (fun key => readTruthy (read pending key)) searchParamsUsed
    end in
  if isPending then
    let '(p, w') := newPromise w in (Throws p, childrenCache, w')
  else
    let cachedChildren := cacheGet childrenCache cacheKey in
    if nodeTruthy cachedChildren then (Returns cachedChildren, childrenCache, w)
    else (Returns children, <[ cacheKey := children ]> childrenCache, w).

(* ===================================================================== *)
(** * Properties                                                          *)
(* ===================================================================== *)

(** ** Objects *)

Section Objects.

Implicit Types (o a b : SearchParams) (k key : string) (v : ParamValue).

Lemma eqb_decide k key : String.eqb k key = bool_decide (k = key).
Proof.
  destruct (String.eqb_spec k key) as [->|Hne].
  - by rewrite bool_decide_eq_true_2.
  - by rewrite bool_decide_eq_false_2.
Qed.

Lemma has_elem_of o key : has o key = true <-> key ∈ keys o.
Proof.
  unfold has. rewrite existsb_exists. split.
  - intros (x & Hin & Heq). apply String.eqb_eq in Heq. subst x.
    by apply list_elem_of_In.
  - intros Hin. exists key. split; [by apply list_elem_of_In|].
    apply String.eqb_refl.
Qed.

Lemma has_false_get o key : has o key = false -> get o key = Undefined.
Proof.
  induction o as [|[k v] o IH]; simpl; [done|].
  unfold has in *. simpl. rewrite String.eqb_sym.
  destruct (String.eqb k key); simpl; [done|]. apply IH.
Qed.

Lemma get_assign o key v k :
  get (assign o key v) k = if decide (key = k) then v else get o k.
Proof.
  induction o as [|[k0 x] o IH]; simpl.
  - rewrite eqb_decide, bool_decide_decide. by destruct (decide (key = k)).
  - rewrite !eqb_decide. destruct (decide (k0 = key)) as [->|Hne].
    + rewrite bool_decide_eq_true_2 by done. simpl.
      rewrite eqb_decide, bool_decide_decide. by destruct (decide (key = k)).
    + rewrite bool_decide_eq_false_2 by done. simpl. rewrite IH.
      rewrite eqb_decide, bool_decide_decide.
      destruct (decide (k0 = k)) as [->|]; [|done].
      by rewrite decide_False by congruence.
Qed.

Lemma keys_assign o key v :
  keys (assign o key v) = if has o key then keys o else (keys o ++ [key])%list.
Proof.
  induction o as [|[k0 x] o IH]; simpl; [done|].
  unfold has in *. simpl. rewrite (String.eqb_sym key k0).
  destruct (String.eqb k0 key); simpl; [done|]. rewrite IH.
  by destruct (existsb _ _).
Qed.

Lemma has_assign o key v k :
  has (assign o key v) k = bool_decide (key = k) || has o k.
Proof.
  apply eq_true_iff_eq. rewrite has_elem_of, keys_assign, orb_true_iff.
  rewrite bool_decide_eq_true, has_elem_of.
  destruct (has o key) eqn:Hk.
  - apply has_elem_of in Hk. split; [tauto|]. intros [<-|]; done.
  - rewrite elem_of_app, list_elem_of_singleton. split; intros [?|?]; auto.
Qed.

Lemma wf_assign o key v : wf o -> wf (assign o key v).
Proof.
  unfold wf. rewrite keys_assign. destruct (has o key) eqn:Hk; [done|].
  intros Hnd. apply NoDup_app. split; [done|]. split; [|apply NoDup_singleton].
  intros x Hx ->%list_elem_of_singleton.
  apply has_elem_of in Hx. congruence.
Qed.

Lemma has_cons k0 x o k :
  has ((k0, x) :: o) k = bool_decide (k0 = k) || has o k.
Proof. unfold has. simpl. by rewrite String.eqb_sym, eqb_decide. Qed.

Lemma get_copyInto src dst k :
  wf src ->
  get (copyInto dst src) k = if has src k then get src k else get dst k.
Proof.
  unfold copyInto, wf. revert dst.
  induction src as [|[k0 x] src IH]; intros dst Hwf; [done|].
  simpl in *. apply NoDup_cons in Hwf as [Hk0 Hwf].
  rewrite IH, get_assign, has_cons, eqb_decide, bool_decide_decide by done.
  destruct (decide (k0 = k)) as [->|Hne]; simpl; [|done].
  destruct (has src k) eqn:Hk; [|done].
  by apply has_elem_of in Hk.
Qed.

Lemma has_copyInto src dst k :
  has (copyInto dst src) k = has dst k || has src k.
Proof.
  unfold copyInto. revert dst.
  induction src as [|[k0 x] src IH]; intros dst; simpl.
  - by rewrite orb_false_r.
  - rewrite IH, has_assign, has_cons. simpl.
    destruct (bool_decide (k0 = k)), (has dst k), (has src k); done.
Qed.

Lemma wf_copyInto src dst : wf dst -> wf (copyInto dst src).
Proof.
  unfold copyInto. revert dst.
  induction src as [|[k0 x] src IH]; intros dst Hwf; [done|].
  simpl. apply IH. by apply wf_assign.
Qed.

(** [{ ...a, ...b }] reads as [b] where [b] has the key, as [a] elsewhere. *)
Lemma get_spread a b k :
  wf a -> wf b ->
  get (spread a (Some b)) k = if has b k then get b k else get a k.
Proof.
  intros Ha Hb. unfold spread. simpl.
  rewrite get_copyInto, get_copyInto by done. simpl.
  destruct (has b k); [done|]. destruct (has a k) eqn:Hk; [done|].
  by rewrite has_false_get.
Qed.

Lemma get_spread_None a k : wf a -> get (spread a None) k = get a k.
Proof.
  intros Ha. change (get (copyInto [] a) k = get a k).
  rewrite get_copyInto by done. simpl.
  destruct (has a k) eqn:Hk; [done|]. by rewrite has_false_get.
Qed.

Lemma has_spread a (ov : option SearchParams) k :
  has (spread a ov) k = has a k || has (default [] ov) k.
Proof. unfold spread. by rewrite !has_copyInto. Qed.

Lemma wf_spread a (ov : option SearchParams) : wf (spread a ov).
Proof. unfold spread. apply wf_copyInto, wf_copyInto. constructor. Qed.

(** Reading a property does not depend on the order of insertion. *)
Lemma get_Permutation a b k : wf a -> a ≡ₚ b -> get a k = get b k.
Proof.
  intros Hwf Hp. revert Hwf.
  induction Hp as [|[k0 x] a b Hp IH|[k0 x] [k1 y] a|a b c Hab IH1 Hbc IH2];
    intros Hwf.
  - done.
  - simpl. destruct (String.eqb k0 k); [done|]. apply IH.
    unfold wf in *. simpl in Hwf. by apply NoDup_cons in Hwf as [_ ?].
  - simpl. rewrite !eqb_decide.
    unfold wf in Hwf. simpl in Hwf.
    apply NoDup_cons in Hwf as [Hne _].
    rewrite !bool_decide_decide.
    destruct (decide (k1 = k)) as [->|]; destruct (decide (k0 = k)) as [->|];
      try done.
    exfalso. apply Hne. left.
  - rewrite IH1 by done. apply IH2.
    unfold wf, keys in *. by rewrite <- Hab.
Qed.

(** Nor does reading through the prototype. *)
Lemma read_Permutation a b k : wf a -> a ≡ₚ b -> read a k = read b k.
Proof.
  intros Hwf Hp. unfold read. rewrite (get_Permutation a b k Hwf Hp).
  assert (Hhas : has a k = has b k).
  { apply eq_true_iff_eq. rewrite !has_elem_of. unfold keys.
    by rewrite (Permutation_map fst Hp). }
  by rewrite Hhas.
Qed.

(** An own key, or a name [Object.prototype] does not have, is read as
    the own read gives it. *)
Lemma read_plain o k :
  has o k = true \/ prototypeMember k = None -> read o k = Plain (get o k).
Proof.
  unfold read. intros [->| ->]; [done|].
  destruct (has o k) eqn:Hk; [done|]. by rewrite has_false_get.
Qed.

End Objects.

(** ** The order [sort()] uses, and sorting keys *)

Section Sorting.

#[global] Instance str_le_trans : Transitive str_le.
Proof.
  unfold str_le, String.leb. intros a.
  induction a as [|ca a IH]; intros [|cb b] [|cc c]; simpl; try done.
  unfold Ascii.compare.
  destruct (N.compare_spec (N_of_ascii ca) (N_of_ascii cb));
    destruct (N.compare_spec (N_of_ascii cb) (N_of_ascii cc));
    destruct (N.compare_spec (N_of_ascii ca) (N_of_ascii cc));
    try done; try lia.
  apply IH.
Qed.

#[global] Instance str_le_total : Total str_le.
Proof. intros a b. apply String.leb_total. Qed.

#[global] Instance str_le_antisym : AntiSymm (=) str_le.
Proof. intros a b. apply String.leb_antisym. Qed.

Lemma sort_Sorted (l : list string) : Sorted str_le (sort l).
Proof. apply Sorted_merge_sort, _. Qed.

Lemma sort_Permutation (l : list string) : sort l ≡ₚ l.
Proof. apply merge_sort_Permutation. Qed.

(** Two arrangements of the same keys sort to the same array. *)
Lemma sort_unique (l1 l2 : list string) : l1 ≡ₚ l2 -> sort l1 = sort l2.
Proof.
  intros Hp. apply (Sorted_unique str_le); try apply sort_Sorted.
  by rewrite !sort_Permutation.
Qed.

(** An array that is already in order is left as it is. *)
Lemma sort_sorted_id (l : list string) : Sorted str_le l -> sort l = l.
Proof.
  intros Hs. apply (Sorted_unique str_le); [apply sort_Sorted|done|].
  apply sort_Permutation.
Qed.

End Sorting.

(** ** The two canonical strings *)

Section Canonical.

Implicit Types (params merged : SearchParams) (search : Url.UrlSearchParams).

Lemma stringifyStep_ext params1 params2 u key :
  get params1 key = get params2 key ->
  stringifyStep params1 u key = stringifyStep params2 u key.
Proof. unfold stringifyStep. by intros ->. Qed.

Lemma stringifyEntries_ext params1 params2 search :
  (forall key, get params1 key = get params2 key) ->
  sort (keys params1) = sort (keys params2) ->
  stringifyEntries search params1 = stringifyEntries search params2.
Proof.
  intros Hget Hkeys. unfold stringifyEntries. rewrite <- Hkeys.
  generalize (sort (keys params1)). intros ks. revert search.
  induction ks as [|k ks IH]; intros search; simpl; [done|].
  by rewrite (stringifyStep_ext params1 params2), IH.
Qed.

Lemma cacheKeyPairs_ext merged1 merged2 used :
  (forall key, key ∈ used -> read merged1 key = read merged2 key) ->
  cacheKeyPairs merged1 used = cacheKeyPairs merged2 used.
Proof.
  intros Hread. unfold cacheKeyPairs.
  induction used as [|k used IH]; simpl; [done|].
  assert (IH' : map (fun key => (key, read merged1 key))
                  (List.filter (fun key => readTruthy (read merged1 key)) used)
                = map (fun key => (key, read merged2 key))
                    (List.filter (fun key => readTruthy (read merged2 key)) used)).
  { apply IH. intros key Hin. apply Hread. by right. }
  assert (Hk : read merged1 k = read merged2 k) by (apply Hread; left).
  rewrite <- Hk.
  destruct (readTruthy (read merged1 k)); simpl; rewrite IH'; [|done].
  by rewrite Hk.
Qed.

End Canonical.

(** C7. Two parameter maps that hold the same key/value pairs, inserted in
    different orders, give the same cache key (for the same declared list)
    and the same visited key (under the same current URL query). *)
Theorem key_canonicalization (params1 params2 : SearchParams)
    (search : Url.UrlSearchParams) (searchParamsUsed : list string) :
  wf params1 ->
  params1 ≡ₚ params2 ->
  useCacheKey params1 searchParamsUsed = useCacheKey params2 searchParamsUsed
  /\ stringifySearchParams search params1
     = stringifySearchParams search params2.
Proof.
  intros Hwf Hperm.
  assert (Hget : forall key, get params1 key = get params2 key)
    by (intros key; by apply get_Permutation).
  split.
  - unfold useCacheKey. rewrite (cacheKeyPairs_ext params1 params2); [done|].
    intros key _. by apply read_Permutation.
  - unfold stringifySearchParams. f_equal.
    apply stringifyEntries_ext; [done|].
    apply sort_unique. unfold keys. by apply Permutation_map.
Qed.

Lemma key_canonicalization_witness :
  useCacheKey [("from", Str "2024-01-01"); ("to", Arr ["x"; "y"])] ["to"; "from"]
  = useCacheKey [("to", Arr ["x"; "y"]); ("from", Str "2024-01-01")] ["to"; "from"]
  /\ stringifySearchParams [("page", "3")]
       [("from", Str "2024-01-01"); ("to", Arr ["x"; "y"])]
     = stringifySearchParams [("page", "3")]
         [("to", Arr ["x"; "y"]); ("from", Str "2024-01-01")].
Proof.
  apply key_canonicalization.
  - by apply (bool_decide_unpack (NoDup _)).
  - apply perm_swap.
Defined.

(** ** The cache key *)

Section CacheKey.

Implicit Types (merged o : SearchParams) (used : list string).

Lemma elem_of_wf o k v :
  wf o -> (k, v) ∈ o <-> has o k = true /\ get o k = v.
Proof.
  unfold wf. induction o as [|[k0 x] o IH]; simpl; intros Hwf.
  - rewrite elem_of_nil. unfold has. simpl. intuition discriminate.
  - apply NoDup_cons in Hwf as [Hk0 Hwf].
    rewrite elem_of_cons, has_cons, eqb_decide, IH by done.
    rewrite bool_decide_decide.
    destruct (decide (k0 = k)) as [->|Hne]; simpl.
    + split; [intros [[= ->]|[Hk _]]|intros [_ ->]; by left]; [done|].
      by apply has_elem_of in Hk.
    + split; [intros [[= ? ?]|?]|intros ?; right]; done.
Qed.

Lemma ownPairs_fst merged used :
  map fst (ownPairs merged used)
  = List.filter (fun k => truthy (get merged k)) used.
Proof. unfold ownPairs. rewrite map_map. simpl. apply map_id. Qed.

Lemma elem_of_ownPairs merged used k v :
  (k, v) ∈ ownPairs merged used
  <-> k ∈ used /\ truthy (get merged k) = true /\ v = get merged k.
Proof.
  unfold ownPairs. rewrite list_elem_of_In, in_map_iff. split.
  - intros (k' & [= -> <-] & Hin). apply filter_In in Hin as [Hin Ht].
    by rewrite list_elem_of_In.
  - intros (Hin & Ht & ->). exists k. split; [done|].
    apply filter_In. by rewrite <- list_elem_of_In.
Qed.

Lemma cacheKeyPairs_fst merged used :
  map fst (cacheKeyPairs merged used)
  = List.filter (fun k => readTruthy (read merged k)) used.
Proof. unfold cacheKeyPairs. rewrite map_map. simpl. apply map_id. Qed.

Lemma elem_of_cacheKeyPairs merged used k r :
  (k, r) ∈ cacheKeyPairs merged used
  <-> k ∈ used /\ readTruthy (read merged k) = true /\ r = read merged k.
Proof.
  unfold cacheKeyPairs. rewrite list_elem_of_In, in_map_iff. split.
  - intros (k' & [= -> <-] & Hin). apply filter_In in Hin as [Hin Ht].
    by rewrite list_elem_of_In.
  - intros (Hin & Ht & ->). exists k. split; [done|].
    apply filter_In. by rewrite <- list_elem_of_In.
Qed.

(** When no declared name falls through to [Object.prototype], the key
    is made of own reads. *)
Lemma useCacheKey_own merged used :
  (forall k, k ∈ used -> has merged k = true \/ prototypeMember k = None) ->
  useCacheKey merged used = join "&" (map showPair (ownPairs merged used)).
Proof.
  intros Hplain. unfold useCacheKey, cacheKeyPairs, ownPairs. f_equal.
  induction used as [|k used IH]; simpl; [done|].
  rewrite (read_plain merged k) by (apply Hplain; left). simpl.
  destruct (truthy (get merged k)); simpl.
  - rewrite (read_plain merged k) by (apply Hplain; left).
    unfold showRead at 1, showPair at 1. simpl. f_equal.
    apply IH. intros k' Hin. apply Hplain. by right.
  - apply IH. intros k' Hin. apply Hplain. by right.
Qed.

Lemma StronglySorted_List_filter {A} (R : relation A) (f : A -> bool) l :
  StronglySorted R l -> StronglySorted R (List.filter f l).
Proof.
  induction 1 as [|x l Hl IH Hx]; simpl; [constructor|].
  destruct (f x); [|done]. constructor; [done|].
  apply Forall_forall. intros y Hy.
  apply list_elem_of_In, filter_In in Hy as [Hy%list_elem_of_In _].
  eapply Forall_forall in Hx; eauto.
Qed.

#[local] Instance pair_le_trans : Transitive pair_le.
Proof. intros p q r. unfold pair_le. apply str_le_trans. Qed.

#[local] Instance pair_le_total : Total pair_le.
Proof. intros p q. unfold pair_le. apply str_le_total. Qed.

(** On a declared list in ascending order without repetition, when no
    declared parameter is the empty string and no declared name falls
    through to [Object.prototype], the key of the code is the key the
    specification describes. *)
Lemma useCacheKey_sorted merged used :
  wf merged ->
  Sorted str_le used -> NoDup used ->
  (forall k, k ∈ used -> get merged k <> Str "") ->
  (forall k, k ∈ used -> has merged k = true \/ prototypeMember k = None) ->
  useCacheKey merged used = specCacheKey merged used.
Proof.
  intros Hwf Hsorted Hnodup Hnonempty Hplain.
  rewrite useCacheKey_own by done.
  unfold specCacheKey. do 2 f_equal. symmetry.
  apply (StronglySorted_unique_strong pair_le).
  - intros [k1 v1] [k2 v2] H1 H2 Hle1 Hle2.
    unfold pair_le in *. simpl in *.
    assert (k1 = k2) as <- by by apply str_le_antisym.
    apply elem_of_ownPairs in H2 as (_ & _ & ->).
    rewrite merge_sort_Permutation in H1.
    rewrite list_elem_of_In in H1.
    apply filter_In in H1 as [H1 _]. apply filter_In in H1 as [H1 _].
    apply list_elem_of_In, elem_of_wf in H1 as [_ <-]; done.
  - apply StronglySorted_merge_sort; apply _.
  - unfold ownPairs.
    apply (StronglySorted_fmap (fun key => (key, get merged key))
             str_le pair_le); [done|].
    apply StronglySorted_List_filter.
    apply Sorted.Sorted_StronglySorted; [|done].
    intros a b c. apply str_le_trans.
  - rewrite merge_sort_Permutation. apply NoDup_Permutation.
    + apply NoDup_ListNoDup, List.NoDup_filter, List.NoDup_filter.
      apply NoDup_ListNoDup. eapply NoDup_fmap_1, Hwf.
    + apply (NoDup_fmap_1 fst).
      change (fst <$> ownPairs merged used)
        with (map fst (ownPairs merged used)).
      rewrite ownPairs_fst.
      by apply NoDup_ListNoDup, List.NoDup_filter, NoDup_ListNoDup.
    + intros [k v]. rewrite elem_of_ownPairs.
      rewrite list_elem_of_In, !filter_In, <- list_elem_of_In.
      rewrite (elem_of_wf merged k v Hwf). simpl.
      rewrite !bool_decide_eq_true. split.
      * intros [[[Hhas <-] Hin] Hv]. split; [done|]. split; [|done].
        specialize (Hnonempty k Hin).
        destruct (get merged k) as [|[|]|]; done.
      * intros (Hin & Ht & ->). split; [split; [|done]|].
        -- split; [|done]. destruct (has merged k) eqn:Hk; [done|].
           apply has_false_get in Hk. by rewrite Hk in Ht.
        -- intros Hu. by rewrite Hu in Ht.
Qed.

End CacheKey.

(** C6, as the claim states it, fails: the declared list is not sorted by
    the code, so a gate declaring [["to"; "from"]] gets [to=2&from=1]
    where the sorted form is [from=1&to=2]. *)
Lemma cache_key_not_sorted :
  useCacheKey [("from", Str "1"); ("to", Str "2")] ["to"; "from"]
  <> specCacheKey [("from", Str "1"); ("to", Str "2")] ["to"; "from"].
Proof. vm_compute. discriminate. Qed.

(** C6, amended. The cache key lists the declared names in the order in
    which they are declared, leaving out every name that reads as falsy
    in the merged map (unset, or the empty string), each as [key=value]
    with what the merged map reads there, joined by [&].  When the
    declared list is in ascending key order without repetition, no
    declared parameter is the empty string and every declared name is a
    key of the merged map or a name [Object.prototype] does not have,
    this is the key of the original claim. *)
Theorem cache_key_declared_order (merged : SearchParams)
    (searchParamsUsed : list string) :
  wf merged ->
  (exists pairs,
      useCacheKey merged searchParamsUsed = join "&" (map showRead pairs)
      /\ map fst pairs
         = List.filter (fun k => readTruthy (read merged k)) searchParamsUsed
      /\ forall k r, (k, r) ∈ pairs -> r = read merged k)
  /\ (Sorted str_le searchParamsUsed -> NoDup searchParamsUsed ->
      (forall k, k ∈ searchParamsUsed -> get merged k <> Str "") ->
      (forall k, k ∈ searchParamsUsed ->
         has merged k = true \/ prototypeMember k = None) ->
      useCacheKey merged searchParamsUsed
      = specCacheKey merged searchParamsUsed).
Proof.
  intros Hwf. split.
  - exists (cacheKeyPairs merged searchParamsUsed).
    split; [done|]. split; [apply cacheKeyPairs_fst|].
    intros k r Hin. by apply elem_of_cacheKeyPairs in Hin as (_ & _ & ->).
  - by apply useCacheKey_sorted.
Qed.

Lemma cache_key_declared_order_witness :
  let merged := [("to", Str "2"); ("q", Str ""); ("from", Arr ["a"; "b"])] in
  (exists pairs,
      useCacheKey merged ["from"; "to"] = join "&" (map showRead pairs)
      /\ map fst pairs = ["from"; "to"]
      /\ forall k r, (k, r) ∈ pairs -> r = read merged k)
  /\ useCacheKey merged ["from"; "to"] = specCacheKey merged ["from"; "to"]
  /\ useCacheKey merged ["toString"; "q"; "to"]
     = "toString=function toString() { [native code] }&to=2".
Proof.
  intros merged.
  destruct (cache_key_declared_order merged ["from"; "to"]) as [Hgen Hsorted].
  - by apply (bool_decide_unpack (NoDup _)).
  - split; [exact Hgen|]. split; [|reflexivity]. apply Hsorted.
    + repeat constructor.
    + by apply (bool_decide_unpack (NoDup _)).
    + intros k Hk.
      repeat (apply elem_of_cons in Hk as [->|Hk]; [vm_compute; discriminate|]).
      by apply elem_of_nil in Hk.
    + intros k Hk.
      repeat (apply elem_of_cons in Hk as [->|Hk]; [by left|]).
      by apply elem_of_nil in Hk.
Defined.

(** ** The visited key and the current URL *)

Section VisitedKey.

Variable params : SearchParams.


Lemma foreign_own key v : has params key = true -> foreign params (key, v) = false.
Proof. intros Hkey. unfold foreign. simpl. by rewrite Hkey. Qed.

Lemma foreign_filter_other key (u : Url.UrlSearchParams) :
  has params key = true ->
  List.filter (foreign params)
    (List.filter (fun p => negb (String.eqb (fst p) key)) u)
  = List.filter (foreign params) u.
Proof.
  intros Hkey. induction u as [|[n x] u IH]; simpl; [done|].
  destruct (String.eqb_spec n key) as [->|Hne]; simpl.
  - by rewrite foreign_own.
  - by rewrite IH.
Qed.

Lemma foreign_set key s (u : Url.UrlSearchParams) :
  has params key = true ->
  List.filter (foreign params) (Url.set u key s)
  = List.filter (foreign params) u.
Proof.
  intros Hkey. induction u as [|[n x] u IH]; simpl.
  - by rewrite foreign_own.
  - destruct (String.eqb_spec n key) as [->|Hne]; simpl.
    + rewrite !foreign_own by done. by apply foreign_filter_other.
    + by rewrite IH.
Qed.

Lemma foreign_append key vs (u : Url.UrlSearchParams) :
  has params key = true ->
  List.filter (foreign params)
    (fold_left (fun u v => Url.append u key v) vs u)
  = List.filter (foreign params) u.
Proof.
  intros Hkey. revert u. induction vs as [|v vs IH]; intros u; simpl; [done|].
  rewrite IH. unfold Url.append. rewrite List.filter_app. simpl.
  rewrite foreign_own by done. apply app_nil_r.
Qed.

Lemma foreign_step u key :
  List.filter (foreign params) (stringifyStep params u key) = List.filter (foreign params) u.
Proof.
  unfold stringifyStep. destruct (has params key) eqn:Hkey.
  - destruct (get params key) as [|[|c s]|vs]; simpl; try done.
    + by apply foreign_set.
    + by apply foreign_append.
  - by rewrite has_false_get.
Qed.

Lemma foreign_entries search :
  List.filter (foreign params) (stringifyEntries search params)
  = List.filter (foreign params) search.
Proof.
  unfold stringifyEntries. generalize (sort (keys params)). intros ks.
  revert search. induction ks as [|k ks IH]; intros search; simpl; [done|].
  by rewrite IH, foreign_step.
Qed.

(** A pair of the URL under a name that [params] lacks stays in front. *)
Lemma step_cons name value u key :
  has params name = false ->
  stringifyStep params ((name, value) :: u) key
  = (name, value) :: stringifyStep params u key.
Proof.
  intros Hname. unfold stringifyStep.
  destruct (String.eqb_spec name key) as [<-|Hne].
  { by rewrite has_false_get. }
  destruct (get params key) as [|[|c s]|vs]; simpl; try done.
  - apply String.eqb_neq in Hne. by rewrite Hne.
  - clear. revert u. induction vs as [|v vs IH]; intros u; simpl; [done|].
    apply IH.
Qed.

Lemma entries_cons name value search :
  has params name = false ->
  stringifyEntries ((name, value) :: search) params
  = (name, value) :: stringifyEntries search params.
Proof.
  intros Hname. unfold stringifyEntries.
  generalize (sort (keys params)). intros ks. revert search.
  induction ks as [|k ks IH]; intros search; simpl; [done|].
  by rewrite step_cons, IH.
Qed.

End VisitedKey.

Lemma length_append (a b : string) :
  String.length (a +:+ b) = String.length a + String.length b.
Proof. induction a as [|c a IH]; simpl; [done|]. by rewrite IH. Qed.

Lemma toString_cons_longer p (l : Url.UrlSearchParams) :
  String.length (Url.toString l) < String.length (Url.toString (p :: l)).
Proof.
  unfold Url.toString, join. simpl. destruct l as [|q l]; simpl.
  - unfold Url.encodePair. rewrite !length_append. simpl. lia.
  - rewrite !length_append. simpl. lia.
Qed.

(** C10. The serialization starts from the pairs of the current URL query:
    every pair of the URL whose name is not a key of the supplied map is
    still there, in place, in what is serialized; hence the same map gives
    different visited keys under URLs that differ by such a pair. *)
Theorem visited_key_seeded_from_url (search : Url.UrlSearchParams)
    (params : SearchParams) (name value : string) :
  has params name = false ->
  stringifySearchParams search params
  = Url.toString (stringifyEntries search params)
  /\ List.filter (foreign params) (stringifyEntries search params)
     = List.filter (foreign params) search
  /\ stringifySearchParams ((name, value) :: search) params
     = Url.toString ((name, value) :: stringifyEntries search params)
  /\ stringifySearchParams ((name, value) :: search) params
     <> stringifySearchParams search params.
Proof.
  intros Hname. split; [done|]. split; [apply foreign_entries|].
  unfold stringifySearchParams. rewrite entries_cons by done.
  split; [done|]. intros Heq.
  pose proof (toString_cons_longer (name, value) (stringifyEntries search params)).
  rewrite Heq in H. lia.
Qed.

Lemma visited_key_seeded_from_url_witness :
  stringifySearchParams [("page", "3")] [("from", Str "a")] = "page=3&from=a"
  /\ stringifySearchParams [] [("from", Str "a")] = "from=a"
  /\ stringifySearchParams [("page", "3")] [("from", Str "a")]
     <> stringifySearchParams [] [("from", Str "a")].
Proof.
  destruct (visited_key_seeded_from_url [] [("from", Str "a")] "page" "3")
    as (_ & _ & _ & Hne); [reflexivity|].
  split; [reflexivity|]. split; [reflexivity|]. exact Hne.
Defined.

(** ** The store *)

Section StoreFacts.

Context {T L W : Type} `{EqDecision L}.
Variable same : T -> T -> bool.
Variable call : L -> T -> W -> W * bool.

Implicit Types (s : Store.State T L) (w : W) (l : L) (pre todo : list L).

Lemma delete_middle pre l todo :
  NoDup (pre ++ l :: todo)%list ->
  List.filter (fun x => bool_decide (x ≠ l)) (pre ++ l :: todo)%list
  = (pre ++ todo)%list.
Proof.
  intros Hnd. apply NoDup_app in Hnd as (_ & Hpre & Hnd).
  apply NoDup_cons in Hnd as [Hl _].
  assert (Hkeep : forall xs, l ∉ xs ->
            List.filter (fun x => bool_decide (x ≠ l)) xs = xs).
  { induction xs as [|y xs IH]; simpl; [done|].
    intros Hy. apply not_elem_of_cons in Hy as [Hne Hy].
    rewrite bool_decide_eq_true_2 by done. by rewrite IH. }
  rewrite List.filter_app. simpl.
  rewrite bool_decide_eq_false_2 by (intros Hne; by apply Hne).
  rewrite !Hkeep; [done|done|].
  intros Hin. apply (Hpre l Hin). left.
Qed.

Lemma subscribe_NoDup l s :
  NoDup (Store.listeners s) -> NoDup (Store.listeners (Store.subscribe l s)).
Proof.
  intros Hnd. unfold Store.subscribe. case_decide; simpl; [done|].
  apply NoDup_app. split; [done|]. split; [|apply NoDup_singleton].
  by intros x Hx ->%list_elem_of_singleton.
Qed.

(** The live iteration visits every listener that was registered when
    it began, as long as listeners remove nobody but themselves. *)
Lemma notifyLoop_callEach todo pre v w :
  NoDup (pre ++ todo)%list ->
  Store.notifyLoop call todo (Store.mk v (pre ++ todo)%list) w
  = (Store.mk v (pre ++ fst (Store.callEach call todo v w))%list,
     snd (Store.callEach call todo v w)).
Proof.
  revert pre w. induction todo as [|l todo IH]; intros pre w Hnd; [done|].
  simpl. rewrite decide_True by (apply elem_of_app; right; left).
  unfold Store.getValue. simpl.
  destruct (call l v w) as [w1 [|]] eqn:Hcall.
  - unfold Store.unsubscribe. simpl. rewrite delete_middle by done.
    rewrite IH.
    + by destruct (Store.callEach call todo v w1).
    + apply NoDup_app in Hnd as (Hpre & Hdisj & Htodo).
      apply NoDup_cons in Htodo as [_ Htodo].
      apply NoDup_app. split; [done|]. split; [|done].
      intros x Hx Hin. apply (Hdisj x Hx). by right.
  - replace (pre ++ l :: todo)%list with ((pre ++ [l]) ++ todo)%list
      by by rewrite <- app_assoc.
    rewrite IH by by rewrite <- app_assoc.
    destruct (Store.callEach call todo v w1). simpl.
    by rewrite <- app_assoc.
Qed.

Lemma notify_callEach s w :
  NoDup (Store.listeners s) ->
  Store.notify call s w
  = (Store.mk (Store.value s)
       (fst (Store.callEach call (Store.listeners s) (Store.value s) w)),
     snd (Store.callEach call (Store.listeners s) (Store.value s) w)).
Proof.
  intros Hnd. destruct s as [v ls]. unfold Store.notify. simpl in *.
  apply (notifyLoop_callEach ls [] v w Hnd).
Qed.

Lemma setValue_value v s w :
  same v (Store.value s) = false ->
  NoDup (Store.listeners s) ->
  Store.value (fst (Store.setValue same call v s w)) = v.
Proof.
  intros Hne Hnd. unfold Store.setValue. rewrite Hne.
  by rewrite notify_callEach.
Qed.

Lemma setValue_cases v s w :
  NoDup (Store.listeners s) ->
  Store.setValue same call v s w
  = if same v (Store.value s) then (s, w)
    else (Store.mk v (fst (Store.callEach call (Store.listeners s) v w)),
          snd (Store.callEach call (Store.listeners s) v w)).
Proof.
  intros Hnd. unfold Store.setValue.
  destruct (same v (Store.value s)); [done|]. by rewrite notify_callEach.
Qed.

End StoreFacts.

(** C8. [setValue(v)] with [v] identical to the stored value changes
    nothing and calls nobody; otherwise the value is replaced and every
    listener registered at that moment is called, once, in order, each
    seeing the new value (those that unsubscribed themselves in the call
    are then gone). *)
Theorem setValue_notifies {T L W : Type} `{EqDecision L}
    (same : T -> T -> bool) (call : L -> T -> W -> W * bool)
    (v : T) (s : Store.State T L) (w : W) :
  NoDup (Store.listeners s) ->
  (same v (Store.value s) = true ->
   Store.setValue same call v s w = (s, w))
  /\ (same v (Store.value s) = false ->
      Store.setValue same call v s w
      = (Store.mk v (fst (Store.callEach call (Store.listeners s) v w)),
         snd (Store.callEach call (Store.listeners s) v w))).
Proof.
  intros Hnd. unfold Store.setValue. split; intros ->; [done|].
  by rewrite notify_callEach.
Qed.

Lemma setValue_notifies_witness :
  let s := Store.mk (Some {| addr := 4; fields := [("a", Str "1")] |})
             [StoreChange 1; Waker 0; StoreChange 2] in
  let r := {| resolved := []; rerender := [] |} in
  storeSetValue (Some {| addr := 4; fields := [("a", Str "1")] |}) s r = (s, r)
  /\ storeSetValue None s r
     = (Store.mk None [StoreChange 1; StoreChange 2],
        {| resolved := [0]; rerender := [1; 2] |}).
Proof.
  intros s r.
  destruct (setValue_notifies strictEq callListener
              (Some {| addr := 4; fields := [("a", Str "1")] |}) s r) as [Hsame _].
  { by apply (bool_decide_unpack (NoDup _)). }
  destruct (setValue_notifies strictEq callListener None s r) as [_ Hnew].
  { by apply (bool_decide_unpack (NoDup _)). }
  split; [apply Hsame; reflexivity|]. apply Hnew. reflexivity.
Defined.

(** ** The setter *)

Section Setter.

Implicit Types (w : World) (env : Browser) (action : SetStateAction).

Lemma publish_provider v w :
  pageSearchParams (publish v w) = pageSearchParams w
  /\ searchParamsOverride (publish v w) = searchParamsOverride w
  /\ visitedSearchParams (publish v w) = visitedSearchParams w
  /\ isRoutePending (publish v w) = isRoutePending w.
Proof. unfold publish. by destruct (storeSetValue _ _ _). Qed.

Lemma publish_counters v w :
  nextAddr (publish v w) = nextAddr w
  /\ nextPromise (publish v w) = nextPromise w
  /\ pushed (publish v w) = pushed w
  /\ replaced (publish v w) = replaced w.
Proof. unfold publish. by destruct (storeSetValue _ _ _). Qed.

Lemma publish_store v w :
  pendingSearchParamsStore (publish v w)
  = fst (storeSetValue v (pendingSearchParamsStore w) (react w))
  /\ react (publish v w)
     = snd (storeSetValue v (pendingSearchParamsStore w) (react w)).
Proof. unfold publish. by destruct (storeSetValue _ _ _). Qed.

Lemma setter_override env action w :
  searchParamsOverride (fst (setResponsiveSearchParams env action w))
  = Some (resolveAction action (responsiveSearchParams w))
  /\ pageSearchParams (fst (setResponsiveSearchParams env action w))
     = pageSearchParams w.
Proof.
  unfold setResponsiveSearchParams, setResponsiveSearchParamsFrom. simpl.
  case_decide; simpl; [done|].
  unfold publish. simpl. by destruct (storeSetValue _ _ _).
Qed.

End Setter.

(** C1. When the visited key of the resolved map is already in the visited
    set, the setter leaves the store as it was (value and listeners, so
    nothing is published and no listener runs), starts no transition and
    asks nothing of the router; after the override of step 2, the one
    thing it does is to push the URL [pathname?key], and it returns. *)
Theorem replay_only_updates_url (env : Browser) (action : SetStateAction)
    (w : World) :
  let newSearchParams := resolveAction action (responsiveSearchParams w) in
  let key := stringifySearchParams (search env) newSearchParams in
  key ∈ visitedSearchParams w ->
  let w' := fst (setResponsiveSearchParams env action w) in
  pendingSearchParamsStore w' = pendingSearchParamsStore w
  /\ react w' = react w
  /\ isRoutePending w' = isRoutePending w
  /\ replaced w' = replaced w
  /\ pushed w' = (pushed w ++ [pathname env +:+ "?" +:+ key])%list
  /\ visitedSearchParams w' = visitedSearchParams w
  /\ pageSearchParams w' = pageSearchParams w
  /\ searchParamsOverride w' = Some newSearchParams
  /\ (nextAddr w', nextPromise w') = (nextAddr w, nextPromise w)
  /\ snd (setResponsiveSearchParams env action w) = Returned.
Proof.
  intros newSearchParams key Hvisited w'. subst w'.
  unfold setResponsiveSearchParams, setResponsiveSearchParamsFrom. simpl.
  fold newSearchParams. fold key. by rewrite decide_True.
Qed.

Lemma replay_only_updates_url_witness :
  let env := {| pathname := "/list"; search := []; replaceRaises := false |} in
  let w := fst (setResponsiveSearchParams env (Value [("a", Str "1")]) (mount [])) in
  let w' := fst (setResponsiveSearchParams env (Value [("a", Str "1")]) w) in
  pendingSearchParamsStore w' = pendingSearchParamsStore w
  /\ replaced w' = ["/list?a=1"]
  /\ pushed w' = ["/list?a=1"].
Proof.
  intros env w w'.
  destruct (replay_only_updates_url env (Value [("a", Str "1")]) w)
    as (Hstore & _ & _ & Hreplaced & Hpushed & _).
  { vm_compute. set_solver. }
  split; [exact Hstore|].
  split; [exact (eq_trans Hreplaced eq_refl)|exact (eq_trans Hpushed eq_refl)].
Defined.

(** C9. Every call of the setter puts the resolved map [M] in place of the
    whole override: afterwards a merged parameter reads as in [M] where
    [M] has the key, and as in the page snapshot elsewhere (unset when the
    page lacks it too), whatever earlier calls had set. *)
Theorem setter_replaces_override (env : Browser) (action : SetStateAction)
    (w : World) :
  let M := resolveAction action (responsiveSearchParams w) in
  let w' := fst (setResponsiveSearchParams env action w) in
  wf (pageSearchParams w) -> wf M ->
  searchParamsOverride w' = Some M
  /\ pageSearchParams w' = pageSearchParams w
  /\ responsiveSearchParams w' = spread (pageSearchParams w) (Some M)
  /\ forall key,
       get (responsiveSearchParams w') key
       = if has M key then get M key else get (pageSearchParams w) key.
Proof.
  intros M w' Hpage HM.
  destruct (setter_override env action w) as [Hov Hpg].
  fold M in Hov. fold w' in Hov, Hpg.
  split; [done|]. split; [done|].
  unfold responsiveSearchParams. rewrite Hov, Hpg. split; [done|].
  intros key. by apply get_spread.
Qed.

Lemma setter_replaces_override_witness :
  let env := {| pathname := "/list"; search := []; replaceRaises := false |} in
  let w0 := mount [("from", Str "p"); ("to", Str "q")] in
  let w1 := fst (setResponsiveSearchParams env
                   (Value [("from", Str "x"); ("tag", Str "t")]) w0) in
  let w2 := fst (setResponsiveSearchParams env (Value [("to", Str "y")]) w1) in
  responsiveSearchParams w1
  = [("from", Str "x"); ("to", Str "q"); ("tag", Str "t")]
  /\ searchParamsOverride w2 = Some [("to", Str "y")]
  /\ get (responsiveSearchParams w2) "from" = Str "p"
  /\ get (responsiveSearchParams w2) "tag" = Undefined.
Proof.
  intros env w0 w1 w2.
  destruct (setter_replaces_override env (Value [("to", Str "y")]) w1)
    as (Hov & _ & _ & Hget).
  { by apply (bool_decide_unpack (NoDup _)). }
  { by apply (bool_decide_unpack (NoDup _)). }
  split; [reflexivity|]. split; [exact Hov|].
  split; [apply (Hget "from")|apply (Hget "tag")].
Defined.

(** ** Reachable worlds *)

Section Invariant.

Implicit Types (w : World) (ls : list Listener) (r : Scheduler).

(** Publishing a delta object: everyone is called, wakers stay. *)
Lemma callEach_Some ls o r :
  Store.callEach callListener ls (Some o) r
  = (ls, {| resolved := resolved r;
            rerender := (rerender r ++ components ls)%list |}).
Proof.
  revert r. induction ls as [|[c|p] ls IH]; intros r; simpl.
  - rewrite app_nil_r. by destruct r.
  - rewrite IH. simpl. by rewrite <- app_assoc.
  - by rewrite IH.
Qed.

(** Publishing [undefined]: every waker resolves its promise and leaves. *)
Lemma callEach_None ls r :
  Store.callEach callListener ls None r
  = (List.filter isStoreChange ls,
     {| resolved := (resolved r ++ wakers ls)%list;
        rerender := (rerender r ++ components ls)%list |}).
Proof.
  revert r. induction ls as [|[c|p] ls IH]; intros r; simpl.
  - rewrite !app_nil_r. by destruct r.
  - rewrite IH. simpl. by rewrite <- app_assoc.
  - rewrite IH. simpl. by rewrite <- app_assoc.
Qed.

Lemma elem_of_wakers ls p : p ∈ wakers ls <-> Waker p ∈ ls.
Proof.
  unfold wakers. rewrite list_elem_of_omap. split.
  - by intros ([c|q] & Hin & [= ->]).
  - intros Hin. by exists (Waker p).
Qed.

Lemma elem_of_filter_isStoreChange ls l :
  l ∈ List.filter isStoreChange ls <-> l ∈ ls /\ isStoreChange l = true.
Proof. by rewrite !list_elem_of_In, filter_In. Qed.

Lemma storeSetValue_fresh o (s : PendingStore) r :
  NoDup (Store.listeners s) ->
  (forall o', Store.value s = Some o' -> addr o' <> addr o) ->
  storeSetValue (Some o) s r
  = (Store.mk (Some o) (Store.listeners s),
     {| resolved := resolved r;
        rerender := (rerender r ++ components (Store.listeners s))%list |}).
Proof.
  intros Hnd Haddr. unfold storeSetValue.
  rewrite setValue_cases by done.
  assert (Hne : strictEq (Some o) (Store.value s) = false).
  { destruct (Store.value s) as [o'|] eqn:Hv; [|done].
    simpl. apply Nat.eqb_neq. intros Heq. by apply (Haddr o'). }
  by rewrite Hne, callEach_Some.
Qed.

Lemma storeSetValue_None (s : PendingStore) r :
  NoDup (Store.listeners s) ->
  storeSetValue None s r
  = match Store.value s with
    | None => (s, r)
    | Some _ =>
        (Store.mk None (List.filter isStoreChange (Store.listeners s)),
         {| resolved := (resolved r ++ wakers (Store.listeners s))%list;
            rerender := (rerender r ++ components (Store.listeners s))%list |})
    end.
Proof.
  intros Hnd. unfold storeSetValue. rewrite setValue_cases by done.
  destruct (Store.value s) as [o'|] eqn:Hv; simpl; [|done].
  by rewrite callEach_None.
Qed.

(** The setter on a combination seen before. *)
Lemma setterFrom_seen captured env action w :
  let newSearchParams := resolveAction action captured in
  let key := stringifySearchParams (search env) newSearchParams in
  key ∈ visitedSearchParams w ->
  setResponsiveSearchParamsFrom captured env action w
  = (pushState (pathname env +:+ "?" +:+ key)
       (setSearchParamsOverride newSearchParams w), Returned).
Proof.
  intros newSearchParams key Hseen. unfold setResponsiveSearchParamsFrom.
  simpl. fold newSearchParams. fold key. by rewrite decide_True.
Qed.

Lemma setter_seen env action w :
  let newSearchParams := resolveAction action (responsiveSearchParams w) in
  let key := stringifySearchParams (search env) newSearchParams in
  key ∈ visitedSearchParams w ->
  setResponsiveSearchParams env action w
  = (pushState (pathname env +:+ "?" +:+ key)
       (setSearchParamsOverride newSearchParams w), Returned).
Proof. apply setterFrom_seen. Qed.

(** The setter on a combination not seen before. *)
Lemma setterFrom_new captured env action w :
  let newSearchParams := resolveAction action captured in
  let key := stringifySearchParams (search env) newSearchParams in
  let w' := fst (setResponsiveSearchParamsFrom captured env action w) in
  inv w -> key ∉ visitedSearchParams w ->
  pendingSearchParamsStore w'
  = Store.mk (Some {| addr := nextAddr w;
                      fields := computePending newSearchParams captured |})
      (Store.listeners (pendingSearchParamsStore w))
  /\ react w'
     = {| resolved := resolved (react w);
          rerender := (rerender (react w)
                       ++ components (Store.listeners (pendingSearchParamsStore w)))%list |}
  /\ nextAddr w' = S (nextAddr w)
  /\ nextPromise w' = nextPromise w
  /\ isRoutePending w' = true
  /\ visitedSearchParams w' = {[ key ]} ∪ visitedSearchParams w
  /\ pushed w' = pushed w
  /\ replaced w'
     = (replaced w
        ++ [pathname env +:+ (if String.eqb key "" then "" else "?" +:+ key)])%list
  /\ transitionThrew w' = replaceRaises env.
Proof.
  intros newSearchParams key w' Hinv Hnew. subst w'.
  unfold setResponsiveSearchParamsFrom. simpl.
  fold newSearchParams. fold key.
  rewrite decide_False by done. simpl. unfold publish. simpl.
  rewrite storeSetValue_fresh; [done|apply Hinv|].
  intros o' Hv. apply (inv_addr w Hinv) in Hv. simpl. lia.
Qed.

Lemma setter_new env action w :
  let current := responsiveSearchParams w in
  let newSearchParams := resolveAction action current in
  let key := stringifySearchParams (search env) newSearchParams in
  let w' := fst (setResponsiveSearchParams env action w) in
  inv w -> key ∉ visitedSearchParams w ->
  pendingSearchParamsStore w'
  = Store.mk (Some {| addr := nextAddr w;
                      fields := computePending newSearchParams current |})
      (Store.listeners (pendingSearchParamsStore w))
  /\ react w'
     = {| resolved := resolved (react w);
          rerender := (rerender (react w)
                       ++ components (Store.listeners (pendingSearchParamsStore w)))%list |}
  /\ nextAddr w' = S (nextAddr w)
  /\ nextPromise w' = nextPromise w
  /\ isRoutePending w' = true
  /\ visitedSearchParams w' = {[ key ]} ∪ visitedSearchParams w
  /\ pushed w' = pushed w
  /\ replaced w'
     = (replaced w
        ++ [pathname env +:+ (if String.eqb key "" then "" else "?" +:+ key)])%list.
Proof.
  intros current newSearchParams key w' Hinv Hnew.
  destruct (setterFrom_new current env action w Hinv Hnew)
    as (? & ? & ? & ? & ? & ? & ? & ? & _).
  by repeat split.
Qed.

Lemma inv_mount value : inv (mount value).
Proof.
  split; simpl.
  - constructor.
  - done.
  - intros _ p. apply not_elem_of_nil.
  - intros p Hp. by apply elem_of_nil in Hp.
  - lia.
Qed.

Lemma inv_setFrom_step captured env action w :
  inv w -> inv (fst (setResponsiveSearchParamsFrom captured env action w)).
Proof.
  intros Hinv.
  destruct (decide (stringifySearchParams (search env)
                      (resolveAction action captured)
                    ∈ visitedSearchParams w)) as [Hseen|Hnew].
  - rewrite setterFrom_seen by done. by destruct Hinv.
  - destruct (setterFrom_new captured env action w Hinv Hnew)
      as (Hs & Hr & Ha & Hp & _).
    destruct Hinv as [H1 H2 H3 H4 H5].
    split; rewrite ?Hs, ?Hr, ?Ha, ?Hp; simpl; try done.
    intros o [= <-]. simpl. lia.
Qed.

Lemma inv_set_step env action w :
  inv w -> inv (fst (setResponsiveSearchParams env action w)).
Proof. apply inv_setFrom_step. Qed.

Lemma inv_settled w : inv w -> inv (transitionSettled w).
Proof.
  intros [H1 H2 H3 H4 H5]. unfold transitionSettled, routePendingEffect.
  simpl. unfold publish. simpl. rewrite storeSetValue_None by done.
  destruct (Store.value (pendingSearchParamsStore w)) as [o|] eqn:Hv.
  - split; simpl.
    + by apply NoDup_ListNoDup, List.NoDup_filter, NoDup_ListNoDup.
    + done.
    + intros _ p Hp. by apply elem_of_filter_isStoreChange in Hp as [_ ?].
    + intros p Hp. apply elem_of_filter_isStoreChange in Hp as [Hp _]. auto.
    + intros p Hp. left. apply elem_of_app.
      destruct (H5 p Hp) as [?|?]; [by left|right].
      by apply elem_of_wakers.
  - split; simpl; try done.
    + intros o. by rewrite Hv.
    + intros _. by apply H3.
Qed.

Lemma inv_subscribe c w : inv w -> inv (storeSubscribe (StoreChange c) w).
Proof.
  intros [H1 H2 H3 H4 H5].
  assert (Hw : forall p,
             Waker p ∈ Store.listeners
                         (Store.subscribe (StoreChange c) (pendingSearchParamsStore w))
             <-> Waker p ∈ Store.listeners (pendingSearchParamsStore w)).
  { intros p. unfold Store.subscribe. case_decide; simpl; [done|].
    rewrite elem_of_app, list_elem_of_singleton.
    split; [by intros [?|?]|by left]. }
  assert (Hv : Store.value (Store.subscribe (StoreChange c) (pendingSearchParamsStore w))
               = Store.value (pendingSearchParamsStore w)).
  { unfold Store.subscribe. by case_decide. }
  split; simpl.
  - by apply subscribe_NoDup.
  - by rewrite Hv.
  - rewrite Hv. intros Hnone p. rewrite Hw. by apply H3.
  - intros p. rewrite Hw. apply H4.
  - intros p Hp. rewrite Hw. by apply H5.
Qed.

Lemma pending_true_value w names :
  useIsSearchParamsPending
    (fields <$> Store.getValue (pendingSearchParamsStore w)) names = true ->
  Store.value (pendingSearchParamsStore w) <> None.
Proof. unfold Store.getValue. by destruct (Store.value _). Qed.

Lemma inv_render props childrenCache w :
  inv w -> inv (snd (ResponsiveSuspense props childrenCache w)).
Proof.
  intros Hinv. unfold ResponsiveSuspense, CacheRSC. simpl.
  destruct (useIsSearchParamsPending _ _) eqn:Hpending; simpl.
  2: { by destruct (nodeTruthy _). }
  destruct (default true (rsSuspendOnTransition props)); simpl.
  2: { by destruct (nodeTruthy _). }
  apply pending_true_value in Hpending.
  destruct Hinv as [H1 H2 H3 H4 H5].
  assert (Hw : forall p,
             Waker p ∈ Store.listeners
                         (Store.subscribe (Waker (nextPromise w))
                            (pendingSearchParamsStore w))
             <-> p = nextPromise w
                 \/ Waker p ∈ Store.listeners (pendingSearchParamsStore w)).
  { intros p. unfold Store.subscribe. case_decide as Hin; simpl.
    - split; [by right|]. intros [->|?]; done.
    - rewrite elem_of_app, list_elem_of_singleton.
      split; [intros [?|[= ->]]; [by right|by left]|].
      intros [->|?]; [by right|by left]. }
  assert (Hv : Store.value (Store.subscribe (Waker (nextPromise w))
                              (pendingSearchParamsStore w))
               = Store.value (pendingSearchParamsStore w)).
  { unfold Store.subscribe. by case_decide. }
  split; simpl.
  - by apply subscribe_NoDup.
  - by rewrite Hv.
  - by rewrite Hv.
  - intros p. rewrite Hw. intros [->|Hp]; [lia|]. apply H4 in Hp. lia.
  - intros p Hp. rewrite Hw.
    destruct (decide (p = nextPromise w)) as [->|Hne]; [by right; left|].
    destruct (H5 p) as [?|?]; [lia|by left|by right; right].
Qed.

Theorem reachable_inv w : reachable w -> inv w.
Proof.
  induction 1 as [value|w w' _ IH Hstep]; [apply inv_mount|].
  destruct Hstep.
  - by apply inv_set_step.
  - by apply inv_setFrom_step.
  - by apply inv_settled.
  - destruct IH. by split.
  - by apply inv_subscribe.
  - by apply inv_render.
Qed.

End Invariant.





(** ** The pending delta *)

Section Delta.

Variables newSearchParams current : SearchParams.

Lemma pendingStep_cases acc k0 :
  pendingStep newSearchParams current acc k0
  = if decide (recorded newSearchParams current k0)
    then assign acc k0 (get newSearchParams k0) else acc.
Proof.
  unfold pendingStep, recorded, differs, put.
  destruct (decide (optToString (get newSearchParams k0)
                    = readOptToString (read current k0))) as [Heq|Hne].
  - rewrite decide_False; [done|]. by intros [Hd _].
  - destruct (String.eqb_spec k0 "__proto__") as [->|Hk].
    + rewrite decide_False; [done|]. by intros [_ Hd].
    + by rewrite decide_True.
Qed.

Lemma pendingStep_has acc k0 k :
  has (pendingStep newSearchParams current acc k0) k
  = has acc k
    || bool_decide (k0 = k) && bool_decide (recorded newSearchParams current k).
Proof.
  rewrite pendingStep_cases. case_decide as Hrec.
  - rewrite has_assign. destruct (decide (k0 = k)) as [<-|Hne].
    + rewrite !bool_decide_eq_true_2 by done. simpl. by rewrite orb_true_r.
    + rewrite (bool_decide_eq_false_2 (k0 = k)) by done. simpl.
      by rewrite orb_false_r.
  - destruct (decide (k0 = k)) as [<-|Hne].
    + rewrite (bool_decide_eq_false_2 (recorded _ _ _)) by done.
      by rewrite andb_false_r, orb_false_r.
    + rewrite (bool_decide_eq_false_2 (k0 = k)) by done.
      by rewrite orb_false_r.
Qed.

Lemma pendingStep_get acc k0 k :
  get (pendingStep newSearchParams current acc k0) k
  = if bool_decide (k0 = k) && bool_decide (recorded newSearchParams current k)
    then get newSearchParams k else get acc k.
Proof.
  rewrite pendingStep_cases. case_decide as Hrec.
  - rewrite get_assign. destruct (decide (k0 = k)) as [<-|Hne].
    + by rewrite !bool_decide_eq_true_2 by done.
    + by rewrite (bool_decide_eq_false_2 (k0 = k)) by done.
  - destruct (decide (k0 = k)) as [<-|Hne].
    + rewrite (bool_decide_eq_false_2 (recorded _ _ _)) by done.
      by rewrite andb_false_r.
    + by rewrite (bool_decide_eq_false_2 (k0 = k)) by done.
Qed.

Lemma pendingFold_has ks acc k :
  has (fold_left (pendingStep newSearchParams current) ks acc) k
  = has acc k
    || bool_decide (k ∈ ks) && bool_decide (recorded newSearchParams current k).
Proof.
  revert acc. induction ks as [|k0 ks IH]; intros acc; cbn [fold_left].
  - rewrite (bool_decide_eq_false_2 (k ∈ [])) by apply not_elem_of_nil.
    by rewrite orb_false_r.
  - rewrite IH, pendingStep_has.
    destruct (decide (k0 = k)) as [<-|Hne].
    + rewrite (bool_decide_eq_true_2 (k0 ∈ k0 :: ks)) by left.
      rewrite (bool_decide_eq_true_2 (k0 = k0)) by done. simpl.
      destruct (has acc k0), (bool_decide (recorded _ _ _)),
        (bool_decide (k0 ∈ ks)); done.
    + rewrite (bool_decide_eq_false_2 (k0 = k)) by done. simpl.
      rewrite orb_false_r. f_equal. f_equal.
      apply bool_decide_ext. rewrite elem_of_cons. intuition congruence.
Qed.

Lemma pendingFold_get ks acc k :
  get (fold_left (pendingStep newSearchParams current) ks acc) k
  = if bool_decide (k ∈ ks) && bool_decide (recorded newSearchParams current k)
    then get newSearchParams k else get acc k.
Proof.
  revert acc. induction ks as [|k0 ks IH]; intros acc; cbn [fold_left].
  - by rewrite (bool_decide_eq_false_2 (k ∈ [])) by apply not_elem_of_nil.
  - rewrite IH, pendingStep_get.
    destruct (decide (k0 = k)) as [<-|Hne].
    + rewrite (bool_decide_eq_true_2 (k0 ∈ k0 :: ks)) by left.
      rewrite (bool_decide_eq_true_2 (k0 = k0)) by done. simpl.
      destruct (bool_decide (recorded _ _ _)), (bool_decide (k0 ∈ ks)); done.
    + rewrite (bool_decide_eq_false_2 (k0 = k)) by done. simpl.
      replace (bool_decide (k ∈ k0 :: ks)) with (bool_decide (k ∈ ks)); [done|].
      apply bool_decide_ext. rewrite elem_of_cons. intuition congruence.
Qed.

(** The delta holds the keys of the new map that the loop records, with
    the new values. *)
Lemma computePending_spec k :
  (has (computePending newSearchParams current) k = true
   <-> has newSearchParams k = true /\ recorded newSearchParams current k)
  /\ (has (computePending newSearchParams current) k = true ->
      get (computePending newSearchParams current) k = get newSearchParams k).
Proof.
  unfold computePending. rewrite pendingFold_has, pendingFold_get. simpl.
  rewrite andb_true_iff, !bool_decide_eq_true, has_elem_of.
  split; [done|]. intros [Hin Hd].
  by rewrite !bool_decide_eq_true_2.
Qed.

(** For a name [Object.prototype] does not have and values that are not
    lists, the comparison of string forms is the comparison of values. *)
Lemma recorded_scalar k :
  prototypeMember k = None ->
  scalar (get newSearchParams k) = true -> scalar (get current k) = true ->
  recorded newSearchParams current k
  <-> get newSearchParams k <> get current k.
Proof.
  intros Hk. unfold recorded, differs.
  rewrite (read_plain current k) by by right. simpl.
  assert (Hne : k <> "__proto__") by (by intros ->).
  destruct (get newSearchParams k), (get current k); simpl; try done;
    intros _ _; split; try (intros [Hd _]; congruence);
    intros Hd; (split; [congruence|done]).
Qed.

End Delta.

(** C4, as the claim states it, fails.  With [a] held by an earlier
    override and then left out of the new map, [a] goes from ["1"] to
    unset, yet the delta that is published holds [b] alone. *)
Lemma pending_delta_misses_removed_key :
  let env0 := {| pathname := "/list"; search := []; replaceRaises := false |} in
  let env1 := {| pathname := "/list"; search := [("a", "1")];
                 replaceRaises := false |} in
  let w := transitionSettled
             (fst (setResponsiveSearchParams env0 (Value [("a", Str "1")])
                     (mount []))) in
  let newSearchParams := [("b", Str "2")] in
  let w' := fst (setResponsiveSearchParams env1 (Value newSearchParams) w) in
  let delta := default [] (fields <$> Store.getValue (pendingSearchParamsStore w')) in
  get (responsiveSearchParams w) "a" = Str "1"
  /\ get (responsiveSearchParams w') "a" = Undefined
  /\ delta = [("b", Str "2")]
  /\ ~ (forall key,
          has delta key = true
          <-> get newSearchParams key <> get (responsiveSearchParams w) key).
Proof.
  intros env0 env1 w newSearchParams w' delta.
  split; [reflexivity|]. split; [reflexivity|]. split; [reflexivity|].
  intros Hclaim. destruct (Hclaim "a") as [_ Hin].
  assert (Hhas : has delta "a" = true) by (apply Hin; vm_compute; discriminate).
  vm_compute in Hhas. discriminate.
Qed.

(** C4, amended. On a combination not visited before, the setter publishes
    a new object.  Its keys are exactly the keys of the resolved map,
    [__proto__] apart, whose new value differs from what the merged map
    the setter's closure holds reads under that key; each has its new
    value (also when that value is [undefined]).  Values are compared
    after conversion to a string; for a key that is not the name of a
    member of [Object.prototype] and values that are not lists this is
    equality of values.  A parameter that the resolved map does not have
    is never in the delta. *)
Theorem pending_delta_changed_keys (captured : SearchParams) (env : Browser)
    (action : SetStateAction) (w : World) :
  let newSearchParams := resolveAction action captured in
  let w' := fst (setResponsiveSearchParamsFrom captured env action w) in
  reachable w ->
  stringifySearchParams (search env) newSearchParams ∉ visitedSearchParams w ->
  exists delta,
    Store.getValue (pendingSearchParamsStore w') = Some delta
    /\ addr delta = nextAddr w
    /\ forall key,
         (has (fields delta) key = true
          <-> has newSearchParams key = true
              /\ key <> "__proto__"
              /\ optToString (get newSearchParams key)
                 <> readOptToString (read captured key))
         /\ (has (fields delta) key = true ->
             get (fields delta) key = get newSearchParams key)
         /\ (has newSearchParams key = false -> has (fields delta) key = false)
         /\ (prototypeMember key = None ->
             scalar (get newSearchParams key) = true ->
             scalar (get captured key) = true ->
             has (fields delta) key = true
             <-> has newSearchParams key = true
                 /\ get newSearchParams key <> get captured key).
Proof.
  intros newSearchParams w' Hreach Hnew.
  destruct (setterFrom_new captured env action w (reachable_inv w Hreach) Hnew)
    as (Hstore & _).
  fold newSearchParams w' in Hstore.
  exists {| addr := nextAddr w;
            fields := computePending newSearchParams captured |}.
  split; [by rewrite Hstore|]. split; [done|]. intros key. simpl.
  destruct (computePending_spec newSearchParams captured key) as [Hhas Hget].
  split; [|split; [exact Hget|split]].
  - rewrite Hhas. unfold recorded, differs. tauto.
  - intros Hno. destruct (has (computePending _ _) key) eqn:Hd; [|done].
    destruct (proj1 Hhas eq_refl) as [Hyes _]. congruence.
  - intros Hk Hs1 Hs2. rewrite Hhas.
    by rewrite (recorded_scalar newSearchParams captured key Hk Hs1 Hs2).
Qed.

Lemma pending_delta_changed_keys_witness :
  let env := {| pathname := "/list"; search := []; replaceRaises := false |} in
  let w := mount [("from", Str "p"); ("to", Str "q")] in
  let first := Value [("from", Str "x"); ("to", Str "q"); ("tag", Undefined)] in
  let second := Value [("from", Str "x"); ("to", Str "r")] in
  let w1 := fst (setResponsiveSearchParams env first w) in
  let w2 := fst (setResponsiveSearchParamsFrom (responsiveSearchParams w)
                   env second w1) in
  (exists delta,
      Store.getValue (pendingSearchParamsStore w1) = Some delta
      /\ fields delta = [("from", Str "x")])
  /\ (exists delta,
        Store.getValue (pendingSearchParamsStore w2) = Some delta
        /\ fields delta = [("from", Str "x"); ("to", Str "r")]).
Proof.
  intros env w first second w1 w2. split.
  - destruct (pending_delta_changed_keys (responsiveSearchParams w) env first w)
      as (delta & Hget & _).
    { apply reach_mount. }
    { vm_compute. set_solver. }
    exists delta. split; [exact Hget|].
    assert (Hd : Some delta
                 = Some {| addr := 0; fields := [("from", Str "x")] |})
      by (rewrite <- Hget; reflexivity).
    by injection Hd as ->.
  - destruct (pending_delta_changed_keys (responsiveSearchParams w) env second w1)
      as (delta & Hget & _).
    { eapply reach_step; [apply reach_mount|apply (step_set env first w)]. }
    { vm_compute. set_solver. }
    exists delta. split; [exact Hget|].
    assert (Hd : Some delta
                 = Some {| addr := 1;
                           fields := [("from", Str "x"); ("to", Str "r")] |})
      by (rewrite <- Hget; reflexivity).
    by injection Hd as ->.
Defined.

(** ** The gate *)

(** What [useIsSearchParamsPending] computes: some declared name reads as
    truthy in the delta. *)
Lemma useIsSearchParamsPending_true (pending : option SearchParams)
    (names : list string) :
  useIsSearchParamsPending pending names = true
  <-> exists delta key,
        pending = Some delta /\ key ∈ names
        /\ readTruthy (read delta key) = true.
Proof.
  unfold useIsSearchParamsPending. destruct pending as [delta|].
  - rewrite existsb_exists. split.
    + intros (key & Hin & Ht). exists delta, key. by rewrite list_elem_of_In.
    + intros (d & key & [= <-] & Hin & Ht). exists key.
      by rewrite <- list_elem_of_In.
  - split; [done|]. by intros (d & key & [=] & _).
Qed.

(** C2 at its failing input.  The page shows [a = "1"]; the setter is
    called with [{ a: undefined }].  The delta that is published has the
    key [a], shared with a gate declaring [["a"]], yet the gate is not
    pending: it does not suspend, and it files the subtree it was given
    under the new cache key. *)
Theorem gate_not_pending_when_parameter_unset :
  let env := {| pathname := "/list"; search := []; replaceRaises := false |} in
  let w := fst (setResponsiveSearchParams env (Value [("a", Undefined)])
                  (mount [("a", Str "1")])) in
  let delta := fields <$> Store.getValue (pendingSearchParamsStore w) in
  let gate := {| rsSearchParamsUsed := ["a"]; rsChildren := NodeElement 7;
                 rsSuspendOnTransition := None |} in
  delta = Some [("a", Undefined)]
  /\ has (default [] delta) "a" = true
  /\ useIsSearchParamsPending delta ["a"] = false
  /\ useIsSearchParamsPending (Some [("a", Str "")]) ["a"] = false
  /\ ResponsiveSuspense gate ∅ w
     = (Returns (NodeElement 7), {[ "" := NodeElement 7 ]}, w).
Proof. repeat split. Qed.

(** The rest of C2 holds: a gate declaring [["b"]] is not pending when
    the delta has [a] alone, and a set, non-empty [a] makes a gate
    declaring [["a"]] pending. *)
Lemma gate_pending_examples (v : ParamValue) :
  useIsSearchParamsPending (Some [("a", v)]) ["b"] = false
  /\ (truthy v = true -> useIsSearchParamsPending (Some [("a", v)]) ["a"] = true)
  /\ useIsSearchParamsPending None ["a"] = false.
Proof.
  split; [done|]. split; [|done]. intros Ht.
  change (readTruthy (Plain v) || false = true). simpl. by rewrite Ht.
Qed.

(** C3, as the claim states it, fails: an entry that is [null] is in the
    cache for the key, and the gate returns the subtree it was given. *)
Lemma falsy_entry_is_not_served :
  let props := {| searchParamsUsed := ["a"]; children := NodeElement 7;
                  cacheKey := "a=1"; suspendOnTransition := true;
                  isPending := false |} in
  let childrenCache : gmap string ReactNode := {[ "a=1" := NodeNull ]} in
  childrenCache !! cacheKey props = Some NodeNull
  /\ fst (fst (CacheRSC props childrenCache (mount [])))
     = Returns (NodeElement 7)
  /\ fst (fst (CacheRSC props childrenCache (mount []))) <> Returns NodeNull.
Proof. repeat split. discriminate. Qed.

(** C3, amended. For a render that is not pending or does not suspend on
    transition: an entry for the cache key that is truthy (every element
    is) is returned as it is, the cache and the store untouched, whatever
    subtree was supplied; otherwise (no entry, or one that is [null],
    [undefined], [false], [0] or the empty string) the supplied subtree is
    returned, and it is stored under the key exactly when the render is
    not pending. *)
Theorem gate_serves_cache (props : CacheRSCProps)
    (childrenCache : gmap string ReactNode) (w : World) :
  isPending props = false \/ suspendOnTransition props = false ->
  (forall cached,
      childrenCache !! cacheKey props = Some cached ->
      nodeTruthy cached = true ->
      CacheRSC props childrenCache w = (Returns cached, childrenCache, w))
  /\ (nodeTruthy (cacheGet childrenCache (cacheKey props)) = false ->
      isPending props = false ->
      CacheRSC props childrenCache w
      = (Returns (children props),
         <[ cacheKey props := children props ]> childrenCache, w))
  /\ (nodeTruthy (cacheGet childrenCache (cacheKey props)) = false ->
      isPending props = true ->
      CacheRSC props childrenCache w
      = (Returns (children props), childrenCache, w))
  /\ (childrenCache !! cacheKey props = None ->
      nodeTruthy (cacheGet childrenCache (cacheKey props)) = false).
Proof.
  intros Hgate.
  assert (Hno : isPending props && suspendOnTransition props = false).
  { destruct Hgate as [-> | ->]; [done|apply andb_false_r]. }
  unfold CacheRSC. rewrite Hno. repeat split.
  - intros cached Hc Ht. unfold cacheGet. rewrite Hc. simpl. by rewrite Ht.
  - by intros -> ->.
  - by intros -> ->.
  - unfold cacheGet. by intros ->.
Qed.

Lemma gate_serves_cache_witness :
  let hit := {| searchParamsUsed := ["a"]; children := NodeElement 8;
                cacheKey := "a=1"; suspendOnTransition := true;
                isPending := false |} in
  let miss := {| searchParamsUsed := ["a"]; children := NodeElement 8;
                 cacheKey := "a=2"; suspendOnTransition := true;
                 isPending := false |} in
  let busy := {| searchParamsUsed := ["a"]; children := NodeElement 8;
                 cacheKey := "a=2"; suspendOnTransition := false;
                 isPending := true |} in
  let childrenCache : gmap string ReactNode := {[ "a=1" := NodeElement 7 ]} in
  CacheRSC hit childrenCache (mount [])
  = (Returns (NodeElement 7), childrenCache, mount [])
  /\ CacheRSC miss childrenCache (mount [])
     = (Returns (NodeElement 8), <[ "a=2" := NodeElement 8 ]> childrenCache, mount [])
  /\ CacheRSC busy childrenCache (mount [])
     = (Returns (NodeElement 8), childrenCache, mount []).
Proof.
  intros hit miss busy childrenCache. split; [|split].
  - destruct (gate_serves_cache hit childrenCache (mount [])) as (Hhit & _).
    { by left. }
    apply Hhit; reflexivity.
  - destruct (gate_serves_cache miss childrenCache (mount []))
      as (_ & Hmiss & _ & Hnone).
    { by left. }
    apply Hmiss; [apply Hnone|]; reflexivity.
  - destruct (gate_serves_cache busy childrenCache (mount []))
      as (_ & _ & Hbusy & Hnone).
    { by right. }
    apply Hbusy; [apply Hnone|]; reflexivity.
Defined.


(* ===================================================================== *)
(** * Further properties                                                  *)
(* ===================================================================== *)

(** ** The store: subscribing and unsubscribing *)

(** X1. The function [subscribe] returns undoes the subscription: for a
    listener that was not registered, subscribing and then calling the
    returned function gives back the store as it was. *)
Theorem unsubscribe_undoes_subscribe {T L : Type} `{EqDecision L}
    (l : L) (s : Store.State T L) :
  l ∉ Store.listeners s ->
  Store.unsubscribe l (Store.subscribe l s) = s
  /\ Store.unsubscribe l s = s.
Proof.
  intros Hfresh. destruct s as [v ls]. simpl in Hfresh.
  assert (Hkeep : forall xs : list L, l ∉ xs ->
            List.filter (fun x => bool_decide (x ≠ l)) xs = xs).
  { induction xs as [|y xs IH]; simpl; [done|].
    intros Hy. apply not_elem_of_cons in Hy as [Hne Hy].
    rewrite bool_decide_eq_true_2 by done. by rewrite IH. }
  unfold Store.subscribe, Store.unsubscribe. simpl.
  rewrite decide_False by done. simpl.
  rewrite List.filter_app, !Hkeep by done. simpl.
  rewrite bool_decide_eq_false_2 by (intros Hne; by apply Hne).
  by rewrite app_nil_r.
Qed.

Lemma unsubscribe_undoes_subscribe_witness :
  let s : PendingStore := Store.mk None [StoreChange 1; Waker 0] in
  Store.unsubscribe (Waker 1) (Store.subscribe (Waker 1) s) = s
  /\ Store.unsubscribe (Waker 1) s = s.
Proof.
  intros s. apply (unsubscribe_undoes_subscribe (Waker 1) s).
  by apply (bool_decide_unpack (_ ∉ _)).
Defined.

(** X2. The listeners are a set: subscribing a listener that is already
    registered changes nothing, so one call of the returned function
    removes it however often it was subscribed; the stored value is not
    touched by either operation. *)
Theorem subscribe_is_set_insertion {T L : Type} `{EqDecision L}
    (l : L) (s : Store.State T L) :
  NoDup (Store.listeners s) ->
  Store.subscribe l (Store.subscribe l s) = Store.subscribe l s
  /\ l ∈ Store.listeners (Store.subscribe l s)
  /\ NoDup (Store.listeners (Store.subscribe l s))
  /\ (l ∉ Store.listeners
             (Store.unsubscribe l (Store.subscribe l (Store.subscribe l s))))
  /\ Store.getValue (Store.unsubscribe l (Store.subscribe l s)) = Store.getValue s.
Proof.
  intros Hnd.
  assert (Hin : l ∈ Store.listeners (Store.subscribe l s)).
  { unfold Store.subscribe. case_decide; simpl; [done|].
    apply elem_of_app. right. left. }
  assert (Htwice : Store.subscribe l (Store.subscribe l s) = Store.subscribe l s).
  { unfold Store.subscribe at 1. by rewrite decide_True. }
  split; [done|]. split; [done|]. split; [by apply subscribe_NoDup|].
  split.
  - rewrite Htwice. unfold Store.unsubscribe. simpl.
    rewrite list_elem_of_In, filter_In, bool_decide_eq_true.
    intros [_ Hne]. by apply Hne.
  - unfold Store.getValue, Store.unsubscribe, Store.subscribe. simpl.
    by case_decide.
Qed.

Lemma subscribe_is_set_insertion_witness :
  let s : PendingStore := Store.mk None [StoreChange 1] in
  Store.subscribe (Waker 0) (Store.subscribe (Waker 0) s)
  = Store.mk None [StoreChange 1; Waker 0]
  /\ Store.unsubscribe (Waker 0) (Store.subscribe (Waker 0) (Store.subscribe (Waker 0) s))
     = s.
Proof.
  intros s.
  destruct (subscribe_is_set_insertion (Waker 0) s) as (Htwice & _).
  { by apply (bool_decide_unpack (NoDup _)). }
  split; [exact (eq_trans Htwice eq_refl)|].
  rewrite Htwice. reflexivity.
Defined.

(** X3. Setting the same value again is silent: after [setValue(v)], a
    second [setValue(v)] changes nothing and calls no listener (for a [v]
    that is identical to itself, as every value but [NaN] is). *)
Theorem setValue_again_is_silent {T L W : Type} `{EqDecision L}
    (same : T -> T -> bool) (call : L -> T -> W -> W * bool)
    (v : T) (s : Store.State T L) (w : W) :
  NoDup (Store.listeners s) ->
  same v v = true ->
  Store.setValue same call v
    (fst (Store.setValue same call v s w))
    (snd (Store.setValue same call v s w))
  = Store.setValue same call v s w.
Proof.
  intros Hnd Hrefl. rewrite (setValue_cases same call v s w Hnd).
  destruct (same v (Store.value s)) eqn:Hsame; simpl.
  - unfold Store.setValue. by rewrite Hsame.
  - unfold Store.setValue. simpl. by rewrite Hrefl.
Qed.

Lemma setValue_again_is_silent_witness :
  let s : PendingStore :=
    Store.mk (Some {| addr := 4; fields := [("a", Str "1")] |})
      [StoreChange 1; Waker 0] in
  let r := {| resolved := []; rerender := [] |} in
  storeSetValue None (fst (storeSetValue None s r)) (snd (storeSetValue None s r))
  = (Store.mk None [StoreChange 1], {| resolved := [0]; rerender := [1] |}).
Proof.
  intros s r. unfold storeSetValue.
  rewrite (setValue_again_is_silent strictEq callListener None s r).
  - reflexivity.
  - by apply (bool_decide_unpack (NoDup _)).
  - reflexivity.
Defined.

(** ** [stringifySearchParams], name by name *)

Section QueryPairs.

Implicit Types (params : SearchParams) (u search : Url.UrlSearchParams).
Implicit Types (keep : string -> bool).

Lemma set_keeps_other_names keep key s u :
  keep key = false ->
  List.filter (fun p => keep (fst p)) (Url.set u key s)
  = List.filter (fun p => keep (fst p)) u.
Proof.
  intros Hkey. induction u as [|[n x] u IH]; simpl.
  - by rewrite Hkey.
  - destruct (String.eqb_spec n key) as [->|Hne]; simpl.
    + rewrite Hkey. clear IH.
      induction u as [|[m y] u IH]; simpl; [done|].
      destruct (String.eqb_spec m key) as [->|Hm]; simpl.
      * by rewrite Hkey.
      * by rewrite IH.
    + by rewrite IH.
Qed.

Lemma fold_append_app key vs u :
  fold_left (fun u v => Url.append u key v) vs u
  = (u ++ map (pair key) vs)%list.
Proof.
  revert u. induction vs as [|v vs IH]; intros u; simpl.
  - by rewrite app_nil_r.
  - rewrite IH. unfold Url.append. by rewrite <- app_assoc.
Qed.

Lemma filter_pairs_other keep key (vs : list string) :
  keep key = false ->
  List.filter (fun p => keep (fst p)) (map (pair key) vs) = [].
Proof.
  intros Hkey. induction vs as [|v vs IH]; simpl; [done|]. by rewrite Hkey.
Qed.

Lemma filter_pairs_same key (vs : list string) :
  named key (map (pair key) vs) = map (pair key) vs.
Proof.
  unfold named. induction vs as [|v vs IH]; simpl; [done|].
  by rewrite String.eqb_refl, IH.
Qed.

Lemma step_keeps_other_names keep params u key :
  (truthy (get params key) = true -> keep key = false) ->
  List.filter (fun p => keep (fst p)) (stringifyStep params u key)
  = List.filter (fun p => keep (fst p)) u.
Proof.
  intros Hkey. unfold stringifyStep.
  destruct (truthy (get params key)) eqn:Ht; [|done].
  destruct (get params key) as [|s|vs]; [done| |].
  - by apply set_keeps_other_names, Hkey.
  - rewrite fold_append_app, List.filter_app, filter_pairs_other by auto.
    apply app_nil_r.
Qed.

Lemma fold_keeps_other_names keep params ks u :
  (forall key, key ∈ ks -> truthy (get params key) = true -> keep key = false) ->
  List.filter (fun p => keep (fst p)) (fold_left (stringifyStep params) ks u)
  = List.filter (fun p => keep (fst p)) u.
Proof.
  revert u. induction ks as [|k ks IH]; intros u Hks; simpl; [done|].
  rewrite IH.
  - apply step_keeps_other_names. apply Hks. left.
  - intros key Hin. apply Hks. by right.
Qed.

Lemma named_set key s u : named key (Url.set u key s) = [(key, s)].
Proof.
  unfold named. induction u as [|[n x] u IH]; simpl.
  - by rewrite String.eqb_refl.
  - destruct (String.eqb_spec n key) as [->|Hne]; simpl.
    + rewrite String.eqb_refl. f_equal. clear IH.
      induction u as [|[m y] u IH]; simpl; [done|].
      destruct (String.eqb_spec m key) as [->|Hm]; simpl; [done|].
      apply String.eqb_neq in Hm. by rewrite Hm.
    + apply String.eqb_neq in Hne. by rewrite Hne.
Qed.

Lemma set_fresh key s u :
  key ∉ map fst u -> Url.set u key s = (u ++ [(key, s)])%list.
Proof.
  induction u as [|[n x] u IH]; simpl; [done|].
  intros Hfresh. apply not_elem_of_cons in Hfresh as [Hne Hfresh].
  destruct (String.eqb_spec n key) as [->|_]; [done|]. by rewrite IH.
Qed.

(** Where a key of [params] sits among the sorted keys. *)
Lemma sorted_keys_split params key :
  wf params -> has params key = true ->
  exists before after,
    sort (keys params) = (before ++ key :: after)%list
    /\ (key ∉ before) /\ (key ∉ after).
Proof.
  intros Hwf Hhas.
  assert (Hin : key ∈ sort (keys params)).
  { rewrite sort_Permutation. by apply has_elem_of. }
  assert (Hnd : NoDup (sort (keys params))) by by rewrite sort_Permutation.
  apply list_elem_of_split in Hin as (before & after & Heq).
  exists before, after. split; [done|]. rewrite Heq in Hnd.
  apply NoDup_app in Hnd as (_ & Hdisj & Hnd).
  apply NoDup_cons in Hnd as [Hafter _]. split; [|done].
  intros Hin. apply (Hdisj key Hin). left.
Qed.

Lemma get_has params key : get params key <> Undefined -> has params key = true.
Proof.
  intros Hget. destruct (has params key) eqn:Hhas; [done|].
  by apply has_false_get in Hhas.
Qed.

Lemma named_entries_split params search key before after :
  sort (keys params) = (before ++ key :: after)%list ->
  key ∉ before -> key ∉ after ->
  named key (stringifyEntries search params)
  = named key (stringifyStep params
                 (fold_left (stringifyStep params) before search) key)
  /\ named key (fold_left (stringifyStep params) before search)
     = named key search.
Proof.
  intros Heq Hbefore Hafter. unfold stringifyEntries, named.
  rewrite Heq, fold_left_app. simpl. split.
  - apply (fold_keeps_other_names (fun n => String.eqb n key)).
    intros k Hk _. apply String.eqb_neq. by intros ->.
  - apply (fold_keeps_other_names (fun n => String.eqb n key)).
    intros k Hk _. apply String.eqb_neq. by intros ->.
Qed.

Lemma entries_string_once params search key s :
  wf params ->
  get params key = Str s -> s <> "" ->
  named key (stringifyEntries search params) = [(key, s)].
Proof.
  intros Hwf Hget Hs.
  destruct (sorted_keys_split params key Hwf) as (before & after & Heq & Hb & Ha).
  { apply get_has. by rewrite Hget. }
  destruct (named_entries_split params search key before after Heq Hb Ha)
    as [-> _].
  unfold stringifyStep. rewrite Hget.
  destruct s as [|c s]; [done|]. simpl. apply named_set.
Qed.

(** Setting a name to the value its only pair already has changes nothing. *)
Lemma set_same key s u : named key u = [(key, s)] -> Url.set u key s = u.
Proof.
  unfold named. induction u as [|[n x] u IH]; simpl; [done|].
  destruct (String.eqb_spec n key) as [->|Hne].
  - intros [= -> Hrest]. f_equal. clear IH.
    induction u as [|[m y] u IHu]; simpl in *; [done|].
    destruct (String.eqb m key); [done|]. simpl. by rewrite IHu.
  - intros Hu. by rewrite IH.
Qed.

End QueryPairs.

(** X4. A parameter whose value is [undefined] or the empty string is not
    taken out of the URL: the pairs of the current query under such a name
    (and under every name the map lacks) are all still there; a map with
    no truthy value serializes to the current query itself. *)
Theorem falsy_values_keep_url_pairs (search : Url.UrlSearchParams)
    (params : SearchParams) :
  List.filter (fun p => negb (truthy (get params (fst p))))
    (stringifyEntries search params)
  = List.filter (fun p => negb (truthy (get params (fst p)))) search
  /\ ((forall key, truthy (get params key) = false) ->
      stringifySearchParams search params = Url.toString search).
Proof.
  assert (Hkeep : List.filter (fun p => negb (truthy (get params (fst p))))
                    (stringifyEntries search params)
                  = List.filter (fun p => negb (truthy (get params (fst p)))) search).
  { apply (fold_keeps_other_names (fun n => negb (truthy (get params n)))).
    by intros key _ ->. }
  split; [done|]. intros Hfalsy.
  assert (Hall : forall l : Url.UrlSearchParams,
            List.filter (fun p => negb (truthy (get params (fst p)))) l = l).
  { induction l as [|p l IH]; simpl; [done|]. by rewrite Hfalsy, IH. }
  rewrite !Hall in Hkeep. unfold stringifySearchParams. by rewrite Hkeep.
Qed.

Lemma falsy_values_keep_url_pairs_witness :
  stringifySearchParams [("a", "1"); ("b", "2")]
    [("a", Undefined); ("b", Str "")]
  = "a=1&b=2".
Proof.
  destruct (falsy_values_keep_url_pairs [("a", "1"); ("b", "2")]
              [("a", Undefined); ("b", Str "")]) as [_ Hsame].
  rewrite Hsame; [reflexivity|].
  intros key. cbn [get].
  destruct (String.eqb "a" key); [reflexivity|].
  destruct (String.eqb "b" key); reflexivity.
Defined.

(** X5. A parameter with a non-empty string value ends up in the query
    exactly once, with the new value, whatever the current URL held under
    that name. *)
Theorem string_value_replaces_url_pairs (search : Url.UrlSearchParams)
    (params : SearchParams) (key s : string) :
  wf params ->
  get params key = Str s -> s <> "" ->
  named key (stringifyEntries search params) = [(key, s)].
Proof.
  apply entries_string_once.
Qed.

Lemma string_value_replaces_url_pairs_witness :
  named "a" (stringifyEntries [("a", "1"); ("b", "2"); ("a", "3")]
               [("c", Str "x"); ("a", Str "9")])
  = [("a", "9")].
Proof.
  apply string_value_replaces_url_pairs.
  - by apply (bool_decide_unpack (NoDup _)).
  - reflexivity.
  - discriminate.
Defined.

(** X6. The elements of a list value are added after the pairs the
    current URL already holds under that name; nothing under the name is
    removed.  Serializing a list-valued map under a URL that already shows
    it therefore repeats the values. *)
Theorem list_value_appends_to_url_pairs (search : Url.UrlSearchParams)
    (params : SearchParams) (key : string) (vs : list string) :
  wf params ->
  get params key = Arr vs ->
  named key (stringifyEntries search params)
  = (named key search ++ map (pair key) vs)%list.
Proof.
  intros Hwf Hget.
  destruct (sorted_keys_split params key Hwf) as (before & after & Heq & Hb & Ha).
  { apply get_has. by rewrite Hget. }
  destruct (named_entries_split params search key before after Heq Hb Ha)
    as [-> Hbefore].
  revert Hbefore.
  generalize (fold_left (stringifyStep params) before search). intros u Hu.
  unfold stringifyStep. rewrite Hget. simpl.
  rewrite fold_append_app. unfold named in *.
  rewrite List.filter_app, Hu. f_equal. apply filter_pairs_same.
Qed.

Lemma list_value_appends_to_url_pairs_witness :
  named "tag" (stringifyEntries [("tag", "x"); ("tag", "y")]
                 [("tag", Arr ["x"; "y"])])
  = [("tag", "x"); ("tag", "y"); ("tag", "x"); ("tag", "y")].
Proof.
  apply (list_value_appends_to_url_pairs [("tag", "x"); ("tag", "y")]
           [("tag", Arr ["x"; "y"])] "tag" ["x"; "y"]).
  - by apply (bool_decide_unpack (NoDup _)).
  - reflexivity.
Defined.

Section FreshQuery.

Implicit Types (params : SearchParams) (u search : Url.UrlSearchParams).

Lemma paramPairs_names params key p :
  p ∈ paramPairs params key -> fst p = key.
Proof.
  unfold paramPairs. destruct (get params key) as [|s|vs].
  - by intros ?%elem_of_nil.
  - destruct (String.eqb s ""); [by intros ?%elem_of_nil|].
    by intros ->%list_elem_of_singleton.
  - rewrite list_elem_of_In, in_map_iff. by intros (v & <- & _).
Qed.

Lemma step_fresh params u key :
  key ∉ map fst u ->
  stringifyStep params u key = (u ++ paramPairs params key)%list.
Proof.
  intros Hfresh. unfold stringifyStep, paramPairs.
  destruct (get params key) as [|[|c s]|vs]; simpl.
  - by rewrite app_nil_r.
  - by rewrite app_nil_r.
  - by apply set_fresh.
  - apply fold_append_app.
Qed.

Lemma fold_fresh params ks u :
  NoDup ks ->
  (forall key, key ∈ ks -> key ∉ map fst u) ->
  fold_left (stringifyStep params) ks u
  = (u ++ flat_map (paramPairs params) ks)%list.
Proof.
  revert u. induction ks as [|k ks IH]; intros u Hnd Hfresh; simpl.
  - by rewrite app_nil_r.
  - apply NoDup_cons in Hnd as [Hk Hnd].
    rewrite step_fresh by (apply Hfresh; left).
    rewrite IH; [by rewrite <- app_assoc|done|].
    intros key Hin. rewrite map_app, elem_of_app. intros [Hu|Hp].
    + by apply (Hfresh key); [right|].
    + apply list_elem_of_In, in_map_iff in Hp as (p & <- & Hp).
      apply list_elem_of_In, paramPairs_names in Hp. congruence.
Qed.

End FreshQuery.

(** X7. When the current query has no pair under a key of the map (an
    empty query, say), the serialized list is the current query followed
    by the map's parameters in ascending key order: one pair for a
    non-empty string, one pair per element of a list, nothing for
    [undefined] or the empty string. *)
Theorem visited_key_sorted_after_url (search : Url.UrlSearchParams)
    (params : SearchParams) :
  wf params ->
  (forall key, key ∈ keys params -> key ∉ map fst search) ->
  stringifyEntries search params
  = (search ++ flat_map (paramPairs params) (sort (keys params)))%list
  /\ Sorted str_le (sort (keys params)).
Proof.
  intros Hwf Hfresh. split; [|apply sort_Sorted].
  unfold stringifyEntries. apply fold_fresh.
  - by rewrite sort_Permutation.
  - intros key Hin. apply Hfresh. by rewrite sort_Permutation in Hin.
Qed.

Lemma visited_key_sorted_after_url_witness :
  stringifySearchParams [("page", "3")]
    [("to", Str "b"); ("tag", Arr ["x"; "y"]); ("q", Str ""); ("from", Str "a")]
  = "page=3&from=a&tag=x&tag=y&to=b".
Proof.
  unfold stringifySearchParams.
  destruct (visited_key_sorted_after_url [("page", "3")]
              [("to", Str "b"); ("tag", Arr ["x"; "y"]); ("q", Str "");
               ("from", Str "a")]) as [-> _].
  - by apply (bool_decide_unpack (NoDup _)).
  - intros key Hin.
    repeat (apply elem_of_cons in Hin as [->|Hin];
            [by apply (bool_decide_unpack (_ ∉ _))|]).
    by apply elem_of_nil in Hin.
  - reflexivity.
Defined.

(** ** The cache key and the gate *)

(** X8. A gate's cache key depends on what the merged map reads under
    the declared names only: two merged maps that read alike under every
    declared name give the same key, whatever else differs between them. *)
Theorem cache_key_ignores_undeclared (merged1 merged2 : SearchParams)
    (searchParamsUsed : list string) :
  (forall key, key ∈ searchParamsUsed -> read merged1 key = read merged2 key) ->
  useCacheKey merged1 searchParamsUsed = useCacheKey merged2 searchParamsUsed.
Proof.
  intros Hsame. unfold useCacheKey. by rewrite (cacheKeyPairs_ext merged1 merged2).
Qed.

Lemma cache_key_ignores_undeclared_witness :
  useCacheKey [("from", Str "a"); ("page", Str "1")] ["from"; "to"; "valueOf"]
  = useCacheKey [("page", Str "7"); ("from", Str "a"); ("sort", Str "up")]
      ["from"; "to"; "valueOf"].
Proof.
  apply cache_key_ignores_undeclared. intros key Hin.
  repeat (apply elem_of_cons in Hin as [->|Hin]; [reflexivity|]).
  by apply elem_of_nil in Hin.
Defined.

(** X10. The cache wins on a revisit: when a render that is not pending
    finds nothing for its key and stores a (truthy) subtree, every later
    render under the same key that does not suspend returns that subtree,
    whatever subtree it is given, and leaves the cache alone. *)
Theorem cache_wins_on_revisit (first later : CacheRSCProps)
    (childrenCache : gmap string ReactNode) (w1 w2 : World) :
  isPending first = false ->
  nodeTruthy (cacheGet childrenCache (cacheKey first)) = false ->
  nodeTruthy (children first) = true ->
  cacheKey later = cacheKey first ->
  isPending later && suspendOnTransition later = false ->
  CacheRSC later (snd (fst (CacheRSC first childrenCache w1))) w2
  = (Returns (children first), snd (fst (CacheRSC first childrenCache w1)), w2).
Proof.
  intros Hidle Hmiss Hnode Hkey Hgo.
  assert (Hstored : snd (fst (CacheRSC first childrenCache w1))
                    = <[ cacheKey first := children first ]> childrenCache).
  { unfold CacheRSC. by rewrite Hidle, Hmiss. }
  rewrite Hstored. unfold CacheRSC. rewrite Hgo, Hkey. unfold cacheGet.
  rewrite lookup_insert_eq. simpl. by rewrite Hnode.
Qed.

Lemma cache_wins_on_revisit_witness :
  let first := {| searchParamsUsed := ["a"]; children := NodeElement 7;
                  cacheKey := "a=1"; suspendOnTransition := true;
                  isPending := false |} in
  let later := {| searchParamsUsed := ["a"]; children := NodeElement 9;
                  cacheKey := "a=1"; suspendOnTransition := false;
                  isPending := true |} in
  CacheRSC later (snd (fst (CacheRSC first ∅ (mount [])))) (mount [])
  = (Returns (NodeElement 7), {[ "a=1" := NodeElement 7 ]}, mount []).
Proof.
  intros first later.
  rewrite (cache_wins_on_revisit first later ∅ (mount []) (mount []));
    reflexivity.
Defined.

Lemma render_keeps_truthy (props : CacheRSCProps)
    (childrenCache : gmap string ReactNode) (w : World) (k : string)
    (cached : ReactNode) :
  childrenCache !! k = Some cached -> nodeTruthy cached = true ->
  snd (fst (CacheRSC props childrenCache w)) !! k = Some cached.
Proof.
  intros Hk Ht. unfold CacheRSC.
  destruct (isPending props && suspendOnTransition props); [done|].
  destruct (nodeTruthy (cacheGet childrenCache (cacheKey props))) eqn:Hhit;
    [done|].
  destruct (isPending props); simpl; [done|].
  destruct (decide (cacheKey props = k)) as [Heq|Hne].
  - unfold cacheGet in Hhit. rewrite Heq, Hk in Hhit. simpl in Hhit. congruence.
  - by rewrite lookup_insert_ne.
Qed.

(** X11. An entry that is truthy is never overwritten or removed: through
    any sequence of renders of the gate, with whatever props and in
    whatever worlds, the cache keeps it under its key. *)
Theorem truthy_entries_persist (renders : list (CacheRSCProps * World))
    (childrenCache : gmap string ReactNode) (k : string) (cached : ReactNode) :
  childrenCache !! k = Some cached -> nodeTruthy cached = true ->
  renderAll renders childrenCache !! k = Some cached.
Proof.
  unfold renderAll. revert childrenCache.
  induction renders as [|[props w] renders IH]; intros childrenCache Hk Ht;
    simpl; [done|].
  apply IH; [|done]. by apply render_keeps_truthy.
Qed.

Lemma truthy_entries_persist_witness :
  let again := {| searchParamsUsed := ["a"]; children := NodeElement 9;
                  cacheKey := "a=1"; suspendOnTransition := true;
                  isPending := false |} in
  let other := {| searchParamsUsed := ["a"]; children := NodeElement 8;
                  cacheKey := "a=2"; suspendOnTransition := true;
                  isPending := false |} in
  renderAll [(again, mount []); (other, mount []); (again, mount [])]
    {[ "a=1" := NodeElement 7 ]} !! "a=1"
  = Some (NodeElement 7).
Proof.
  intros again other. apply truthy_entries_persist; reflexivity.
Defined.

(** ** The coordinator over time *)

Section Coordinator.

Implicit Types (w : World) (env : Browser) (action : SetStateAction).

(** After a call of the setter the visited key is in the visited set. *)
Lemma setterFrom_visited captured env action w :
  visitedSearchParams (fst (setResponsiveSearchParamsFrom captured env action w))
  = {[ stringifySearchParams (search env) (resolveAction action captured) ]}
    ∪ visitedSearchParams w.
Proof.
  unfold setResponsiveSearchParamsFrom. simpl. case_decide as Hseen; simpl.
  - symmetry. apply subseteq_union_1_L. by apply singleton_subseteq_l.
  - unfold publish. simpl. by destruct (storeSetValue _ _ _).
Qed.

Lemma setter_visited env action w :
  visitedSearchParams (fst (setResponsiveSearchParams env action w))
  = {[ stringifySearchParams (search env)
         (resolveAction action (responsiveSearchParams w)) ]}
    ∪ visitedSearchParams w.
Proof. apply setterFrom_visited. Qed.

Lemma subscribe_elem (l l' : Listener) (s : PendingStore) :
  l' ∈ Store.listeners (Store.subscribe l s)
  <-> l' = l \/ l' ∈ Store.listeners s.
Proof.
  unfold Store.subscribe. case_decide as Hin; simpl.
  - split; [by right|]. by intros [->|?].
  - rewrite elem_of_app, list_elem_of_singleton. tauto.
Qed.

(** What a render does to the world: nothing, or one new promise. *)
Lemma render_world props childrenCache w :
  snd (ResponsiveSuspense props childrenCache w) = w
  \/ (snd (ResponsiveSuspense props childrenCache w) = snd (newPromise w)
      /\ Store.value (pendingSearchParamsStore w) <> None).
Proof.
  unfold ResponsiveSuspense, CacheRSC. simpl.
  destruct (useIsSearchParamsPending _ _) eqn:Hpending; simpl.
  - destruct (default true (rsSuspendOnTransition props)); simpl.
    + right. split; [done|]. by apply pending_true_value in Hpending.
    + left. by destruct (nodeTruthy _).
  - left. by destruct (nodeTruthy _).
Qed.

(** What the settling of a transition does to the store and to React. *)
Lemma settled_store w :
  inv w ->
  pendingSearchParamsStore (transitionSettled w)
  = Store.mk None
      (match Store.value (pendingSearchParamsStore w) with
       | None => Store.listeners (pendingSearchParamsStore w)
       | Some _ =>
           List.filter isStoreChange
             (Store.listeners (pendingSearchParamsStore w))
       end)
  /\ resolved (react (transitionSettled w))
     = (resolved (react w)
        ++ match Store.value (pendingSearchParamsStore w) with
           | None => []
           | Some _ => wakers (Store.listeners (pendingSearchParamsStore w))
           end)%list
  /\ nextPromise (transitionSettled w) = nextPromise w
  /\ visitedSearchParams (transitionSettled w) = visitedSearchParams w
  /\ replaced (transitionSettled w) = replaced w
  /\ isRoutePending (transitionSettled w) = false
  /\ searchParamsOverride (transitionSettled w) = searchParamsOverride w
  /\ pageSearchParams (transitionSettled w) = pageSearchParams w.
Proof.
  intros Hinv. unfold transitionSettled, routePendingEffect. simpl.
  unfold publish. simpl. rewrite storeSetValue_None by apply Hinv.
  destruct (pendingSearchParamsStore w) as [[o|] ls]; simpl; [done|].
  by rewrite app_nil_r.
Qed.

Lemma NoDup_wakers (ls : list Listener) : NoDup ls -> NoDup (wakers ls).
Proof.
  induction 1 as [|l ls Hnotin Hnd IH]; [constructor|].
  destruct l as [c|p]; simpl; [done|].
  constructor; [|done]. by rewrite elem_of_wakers.
Qed.

Lemma inv_step w w' : inv w -> step w w' -> inv w'.
Proof.
  intros Hinv Hstep. destruct Hstep.
  - by apply inv_set_step.
  - by apply inv_setFrom_step.
  - by apply inv_settled.
  - destruct Hinv. by split.
  - by apply inv_subscribe.
  - by apply inv_render.
Qed.

Lemma resolvedOnce_setFrom captured env action w :
  inv w -> resolvedOnce w ->
  resolvedOnce (fst (setResponsiveSearchParamsFrom captured env action w)).
Proof.
  intros Hinv [Hknown Hapart Hnd].
  destruct (decide (stringifySearchParams (search env)
                      (resolveAction action captured)
                    ∈ visitedSearchParams w)) as [Hseen|Hnew].
  - rewrite setterFrom_seen by done. by split.
  - destruct (setterFrom_new captured env action w Hinv Hnew)
      as (Hs & Hr & _ & Hp & _).
    split; rewrite ?Hs, ?Hr, ?Hp; done.
Qed.

Lemma resolvedOnce_step w w' :
  inv w -> resolvedOnce w -> step w w' -> resolvedOnce w'.
Proof.
  intros Hinv Honce Hstep. destruct Hstep.
  1, 2: by apply resolvedOnce_setFrom.
  all: destruct Honce as [Hknown Hapart Hnd].
  - destruct (settled_store w Hinv) as (Hs & Hr & Hp & _).
    split; rewrite ?Hs, ?Hr, ?Hp; simpl.
    + intros p [Hp1|Hp2]%elem_of_app; [by apply Hknown|].
      destruct (Store.value (pendingSearchParamsStore w)) as [o|];
        [|by apply elem_of_nil in Hp2].
      apply elem_of_wakers in Hp2. by apply (inv_promise w Hinv).
    + intros p Hp'.
      destruct (Store.value (pendingSearchParamsStore w)) eqn:Hv.
      * by apply elem_of_filter_isStoreChange in Hp' as [_ ?].
      * by apply (inv_idle w Hinv Hv) in Hp'.
    + apply NoDup_app. split; [done|].
      destruct (Store.value (pendingSearchParamsStore w)) as [o|];
        [|split; [intros ?? ?%elem_of_nil; done|constructor]].
      split; [|apply NoDup_wakers, Hinv].
      intros p Hp1 Hp2%elem_of_wakers. by apply (Hapart p).
  - by split.
  - split; simpl; [done| |done].
    intros p [[=]|Hp]%subscribe_elem. by apply Hapart.
  - destruct (render_world props childrenCache w) as [->|[-> _]]; [by split|].
    split; simpl.
    + intros p Hp. apply Hknown in Hp. lia.
    + intros p [[= ->]|Hp]%subscribe_elem; [|by apply Hapart].
      intros Hin. apply Hknown in Hin. lia.
    + done.
Qed.

Lemma reachable_resolvedOnce w : reachable w -> resolvedOnce w.
Proof.
  induction 1 as [value|w w' Hreach IH Hstep].
  - split; simpl; [by intros p ?%elem_of_nil|by intros p ?%elem_of_nil|constructor].
  - eapply resolvedOnce_step; [by apply reachable_inv| |]; done.
Qed.

End Coordinator.

(** X12. The visited set only grows: no move of the system takes a key
    out of it. *)
Theorem visited_never_shrinks (w w' : World) :
  step w w' -> visitedSearchParams w ⊆ visitedSearchParams w'.
Proof.
  intros [].
  - rewrite setter_visited. set_solver.
  - rewrite setterFrom_visited. set_solver.
  - unfold transitionSettled, routePendingEffect. simpl.
    unfold publish. simpl. by destruct (storeSetValue _ _ _).
  - done.
  - done.
  - by destruct (render_world props childrenCache w0) as [->|[-> _]].
Qed.

Lemma visited_never_shrinks_witness :
  let env := {| pathname := "/list"; search := []; replaceRaises := false |} in
  let w := fst (setResponsiveSearchParams env (Value [("a", Str "1")]) (mount [])) in
  "a=1" ∈ visitedSearchParams w
  /\ visitedSearchParams w ⊆ visitedSearchParams (transitionSettled w).
Proof.
  intros env w. split; [vm_compute; set_solver|].
  apply visited_never_shrinks. by apply step_settled.
Defined.

(** X13. Setting the same literal map twice in a row, under the same
    current URL, replays: the second call publishes nothing, starts no
    transition, asks nothing of the router and only pushes the URL. *)
Theorem repeated_set_is_replayed (env : Browser) (M : SearchParams)
    (w : World) :
  let w1 := fst (setResponsiveSearchParams env (Value M) w) in
  let w2 := fst (setResponsiveSearchParams env (Value M) w1) in
  pendingSearchParamsStore w2 = pendingSearchParamsStore w1
  /\ react w2 = react w1
  /\ isRoutePending w2 = isRoutePending w1
  /\ replaced w2 = replaced w1
  /\ visitedSearchParams w2 = visitedSearchParams w1
  /\ pushed w2
     = (pushed w1
        ++ [pathname env +:+ "?" +:+ stringifySearchParams (search env) M])%list.
Proof.
  intros w1 w2. subst w2.
  rewrite (setter_seen env (Value M) w1).
  - done.
  - subst w1. rewrite setter_visited. simpl. set_solver.
Qed.

(** X14. The setter wakes nobody: in a reachable world a call of the
    setter, on either branch, resolves no promise and leaves every
    listener, the wakers of suspended gates among them, registered. *)
Theorem setter_wakes_nobody (env : Browser) (action : SetStateAction)
    (w : World) :
  reachable w ->
  resolved (react (fst (setResponsiveSearchParams env action w)))
  = resolved (react w)
  /\ Store.listeners
       (pendingSearchParamsStore (fst (setResponsiveSearchParams env action w)))
     = Store.listeners (pendingSearchParamsStore w)
  /\ nextPromise (fst (setResponsiveSearchParams env action w)) = nextPromise w.
Proof.
  intros Hreach.
  destruct (decide (stringifySearchParams (search env)
                      (resolveAction action (responsiveSearchParams w))
                    ∈ visitedSearchParams w)) as [Hseen|Hnew].
  - by rewrite setter_seen.
  - destruct (setter_new env action w (reachable_inv w Hreach) Hnew)
      as (-> & -> & _ & -> & _).
    done.
Qed.

Lemma setter_wakes_nobody_witness :
  let env := {| pathname := "/list"; search := []; replaceRaises := false |} in
  let gate := {| rsSearchParamsUsed := ["a"]; rsChildren := NodeElement 7;
                 rsSuspendOnTransition := None |} in
  let w1 := fst (setResponsiveSearchParams env (Value [("a", Str "1")]) (mount [])) in
  let w2 := snd (ResponsiveSuspense gate ∅ w1) in
  let w3 := fst (setResponsiveSearchParams env (Value [("a", Str "2")]) w2) in
  resolved (react w3) = []
  /\ Store.listeners (pendingSearchParamsStore w3) = [Waker 0].
Proof.
  intros env gate w1 w2 w3.
  destruct (setter_wakes_nobody env (Value [("a", Str "2")]) w2)
    as (Hres & Hls & _).
  { eapply reach_step; [|apply (step_render gate ∅ w1)].
    eapply reach_step; [apply (reach_mount [])|].
    apply (step_set env (Value [("a", Str "1")]) (mount [])). }
  split; [exact (eq_trans Hres eq_refl)|exact (eq_trans Hls eq_refl)].
Defined.

(** X15. No wake-up is lost: in every reachable world each promise a gate
    has thrown is either resolved or still has its waker registered, and
    while the store holds [undefined] no waker is registered, so that
    every promise thrown so far is then resolved. *)
Theorem no_lost_wakeup (w : World) :
  reachable w ->
  (forall p, p < nextPromise w ->
     p ∈ resolved (react w)
     \/ Waker p ∈ Store.listeners (pendingSearchParamsStore w))
  /\ (Store.getValue (pendingSearchParamsStore w) = None ->
      forall p, p < nextPromise w -> p ∈ resolved (react w))
  /\ NoDup (Store.listeners (pendingSearchParamsStore w)).
Proof.
  intros Hinv%reachable_inv. split; [apply Hinv|]. split; [|apply Hinv].
  intros Hnone p Hp. destruct (inv_waiting w Hinv p Hp) as [?|Hwaker]; [done|].
  by apply (inv_idle w Hinv Hnone) in Hwaker.
Qed.

Lemma no_lost_wakeup_witness :
  let env := {| pathname := "/list"; search := []; replaceRaises := false |} in
  let gate := {| rsSearchParamsUsed := ["a"]; rsChildren := NodeElement 7;
                 rsSuspendOnTransition := None |} in
  let w1 := fst (setResponsiveSearchParams env (Value [("a", Str "1")]) (mount [])) in
  let w2 := snd (ResponsiveSuspense gate ∅ w1) in
  nextPromise w2 = 1
  /\ (0 ∈ resolved (react w2)
      \/ Waker 0 ∈ Store.listeners (pendingSearchParamsStore w2)).
Proof.
  intros env gate w1 w2.
  destruct (no_lost_wakeup w2) as (Hwait & _).
  { eapply reach_step; [|apply (step_render gate ∅ w1)].
    eapply reach_step; [apply (reach_mount [])|].
    apply (step_set env (Value [("a", Str "1")]) (mount [])). }
  split; [reflexivity|]. apply Hwait. vm_compute. lia.
Defined.

(** X16. A promise is resolved at most once, and never while its waker is
    still registered: in every reachable world the list of resolutions
    has no repetition, holds only promises that were thrown, and holds no
    promise whose waker is in the store. *)
Theorem promises_resolved_once (w : World) :
  reachable w ->
  NoDup (resolved (react w))
  /\ (forall p, p ∈ resolved (react w) -> p < nextPromise w)
  /\ (forall p,
        Waker p ∈ Store.listeners (pendingSearchParamsStore w) ->
        p ∉ resolved (react w)).
Proof.
  intros Hreach. destruct (reachable_resolvedOnce w Hreach). by repeat split.
Qed.

Lemma promises_resolved_once_witness :
  let env := {| pathname := "/list"; search := []; replaceRaises := false |} in
  let gate := {| rsSearchParamsUsed := ["a"]; rsChildren := NodeElement 7;
                 rsSuspendOnTransition := None |} in
  let w1 := fst (setResponsiveSearchParams env (Value [("a", Str "1")]) (mount [])) in
  let w2 := snd (ResponsiveSuspense gate ∅ w1) in
  let w3 := transitionSettled (transitionSettled w2) in
  resolved (react w3) = [0] /\ NoDup (resolved (react w3)).
Proof.
  intros env gate w1 w2 w3.
  destruct (promises_resolved_once w3) as (Hnd & _).
  { eapply reach_step; [|by apply step_settled].
    eapply reach_step; [|by apply step_settled].
    eapply reach_step; [|apply (step_render gate ∅ w1)].
    eapply reach_step; [apply (reach_mount [])|].
    apply (step_set env (Value [("a", Str "1")]) (mount [])). }
  split; [reflexivity|exact Hnd].
Defined.

(** X17. The router is asked once for each visited key and never again:
    in every reachable world the number of [router.replace] calls is the
    number of keys in the visited set. *)
Theorem one_replace_per_visited_key (w : World) :
  reachable w -> length (replaced w) = size (visitedSearchParams w).
Proof.
  induction 1 as [value|w w' Hreach IH Hstep]; [done|].
  pose proof (reachable_inv w Hreach) as Hinv. destruct Hstep.
  - destruct (decide (stringifySearchParams (search env)
                        (resolveAction action (responsiveSearchParams w))
                      ∈ visitedSearchParams w)) as [Hseen|Hnew].
    + by rewrite setter_seen.
    + destruct (setter_new env action w Hinv Hnew)
        as (_ & _ & _ & _ & _ & -> & _ & ->).
      rewrite length_app, size_union, size_singleton by set_solver.
      simpl. lia.
  - destruct (decide (stringifySearchParams (search env)
                        (resolveAction action captured)
                      ∈ visitedSearchParams w)) as [Hseen|Hnew].
    + by rewrite setterFrom_seen.
    + destruct (setterFrom_new captured env action w Hinv Hnew)
        as (_ & _ & _ & _ & _ & -> & _ & -> & _).
      rewrite length_app, size_union, size_singleton by set_solver.
      simpl. lia.
  - by destruct (settled_store w Hinv) as (_ & _ & _ & -> & -> & _).
  - done.
  - done.
  - by destruct (render_world props childrenCache w) as [->|[-> _]].
Qed.

Lemma one_replace_per_visited_key_witness :
  let env := {| pathname := "/list"; search := []; replaceRaises := false |} in
  let w1 := fst (setResponsiveSearchParams env (Value [("a", Str "1")]) (mount [])) in
  let w2 := fst (setResponsiveSearchParams env (Value [("a", Str "2")]) w1) in
  let w3 := fst (setResponsiveSearchParams env (Value [("a", Str "1")]) w2) in
  replaced w3 = ["/list?a=1"; "/list?a=2"]
  /\ size (visitedSearchParams w3) = 2.
Proof.
  intros env w1 w2 w3. split; [reflexivity|].
  rewrite <- (one_replace_per_visited_key w3); [reflexivity|].
  eapply reach_step; [|apply (step_set env (Value [("a", Str "1")]) w2)].
  eapply reach_step; [|apply (step_set env (Value [("a", Str "2")]) w1)].
  eapply reach_step; [apply (reach_mount [])|].
  apply (step_set env (Value [("a", Str "1")]) (mount [])).
Defined.



(** X19. The override outlives the navigation it asked for: neither the
    settling of the transition nor a new page snapshot clears it, so after
    both the merged parameters still read as the override where it has
    the key, and as the new snapshot only elsewhere. *)
Theorem override_outlives_navigation (w : World) (M value : SearchParams) :
  searchParamsOverride w = Some M ->
  wf M -> wf value ->
  searchParamsOverride (pageProps value (transitionSettled w)) = Some M
  /\ forall key,
       get (responsiveSearchParams (pageProps value (transitionSettled w))) key
       = if has M key then get M key else get value key.
Proof.
  intros Hov HM Hvalue.
  assert (Hkept : searchParamsOverride (pageProps value (transitionSettled w))
                  = Some M).
  { unfold transitionSettled, routePendingEffect. simpl.
    unfold publish. simpl. by destruct (storeSetValue _ _ _). }
  split; [done|]. intros key. unfold responsiveSearchParams.
  rewrite Hkept. simpl. by apply get_spread.
Qed.

Lemma override_outlives_navigation_witness :
  let env := {| pathname := "/list"; search := []; replaceRaises := false |} in
  let w := fst (setResponsiveSearchParams env (Value [("a", Str "1")]) (mount [])) in
  let w' := pageProps [("a", Str "server"); ("b", Str "2")] (transitionSettled w) in
  get (responsiveSearchParams w') "a" = Str "1"
  /\ get (responsiveSearchParams w') "b" = Str "2".
Proof.
  intros env w w'.
  destruct (override_outlives_navigation w [("a", Str "1")]
              [("a", Str "server"); ("b", Str "2")]) as [_ Hget].
  - reflexivity.
  - by apply (bool_decide_unpack (NoDup _)).
  - by apply (bool_decide_unpack (NoDup _)).
  - split; [apply (Hget "a")|apply (Hget "b")].
Defined.

(** ** The delta, key by key *)

Section DeltaKeys.

Variables newSearchParams current : SearchParams.

Lemma pendingFold_keys ks acc :
  NoDup ks ->
  (forall key, key ∈ ks -> has acc key = false) ->
  keys (fold_left (pendingStep newSearchParams current) ks acc)
  = (keys acc
     ++ List.filter (fun key => bool_decide (recorded newSearchParams current key))
          ks)%list.
Proof.
  revert acc. induction ks as [|k ks IH]; intros acc Hnd Hfresh; simpl.
  - by rewrite app_nil_r.
  - apply NoDup_cons in Hnd as [Hk Hnd].
    assert (Hacc : has acc k = false) by (apply Hfresh; left).
    rewrite pendingStep_cases.
    destruct (decide (recorded newSearchParams current k)) as [Hrec|Hrec].
    + rewrite bool_decide_eq_true_2 by done.
      rewrite IH; [|done|].
      * rewrite keys_assign, Hacc. by rewrite <- app_assoc.
      * intros key Hin. rewrite has_assign.
        rewrite bool_decide_eq_false_2 by (by intros ->).
        apply Hfresh. by right.
    + rewrite bool_decide_eq_false_2 by done.
      apply IH; [done|]. intros key Hin. apply Hfresh. by right.
Qed.

End DeltaKeys.

(** X20. The keys of the delta are the keys of the new map, [__proto__]
    apart, whose string form differs from what the merged map reads
    under them (an inherited member of [Object.prototype] where the
    merged map has no such key), in the order of the new map; the delta
    is a well-formed object, and it is the empty object when no such key
    differs (a call that changes nothing still publishes, but an empty
    delta). *)
Theorem delta_keys_in_order (newSearchParams current : SearchParams) :
  wf newSearchParams ->
  keys (computePending newSearchParams current)
  = List.filter
      (fun key =>
         bool_decide
           (optToString (get newSearchParams key)
            <> readOptToString (read current key)
            /\ key <> "__proto__"))
      (keys newSearchParams)
  /\ wf (computePending newSearchParams current)
  /\ ((forall key, key ∈ keys newSearchParams -> key <> "__proto__" ->
         optToString (get newSearchParams key)
         = readOptToString (read current key)) ->
      computePending newSearchParams current = []).
Proof.
  intros Hwf.
  assert (Hkeys : keys (computePending newSearchParams current)
                  = List.filter
                      (fun key => bool_decide (recorded newSearchParams current key))
                      (keys newSearchParams)).
  { unfold computePending. by rewrite pendingFold_keys. }
  split; [done|]. split.
  - unfold wf. rewrite Hkeys.
    by apply NoDup_ListNoDup, List.NoDup_filter, NoDup_ListNoDup.
  - intros Hsame.
    assert (Hnil : keys (computePending newSearchParams current) = []).
    { rewrite Hkeys. clear Hkeys Hwf.
      induction (keys newSearchParams) as [|k ks IH]; simpl; [done|].
      rewrite bool_decide_eq_false_2.
      - apply IH. intros key Hin. apply Hsame. by right.
      - intros [Hd Hk]. apply Hd, Hsame; [left|done]. }
    by destruct (computePending newSearchParams current).
Qed.

Lemma delta_keys_in_order_witness :
  keys (computePending
          [("to", Str "q"); ("valueOf", Undefined); ("from", Str "x");
           ("tag", Arr ["a"; "b"])]
          [("from", Str "p"); ("to", Str "q"); ("tag", Str "a,b")])
  = ["valueOf"; "from"]
  /\ computePending [("to", Str "q")] [("from", Str "p"); ("to", Str "q")] = [].
Proof.
  destruct (delta_keys_in_order
              [("to", Str "q"); ("valueOf", Undefined); ("from", Str "x");
               ("tag", Arr ["a"; "b"])]
              [("from", Str "p"); ("to", Str "q"); ("tag", Str "a,b")])
    as (Hkeys & _).
  { by apply (bool_decide_unpack (NoDup _)). }
  destruct (delta_keys_in_order [("to", Str "q")]
              [("from", Str "p"); ("to", Str "q")]) as (_ & _ & Hempty).
  { by apply (bool_decide_unpack (NoDup _)). }
  split; [exact (eq_trans Hkeys eq_refl)|]. apply Hempty.
  intros key Hin _.
  repeat (apply elem_of_cons in Hin as [->|Hin]; [reflexivity|]).
  by apply elem_of_nil in Hin.
Defined.

(** ** The earlier revisions *)

(** X21. On maps without list values the array-aware
    [stringifySearchParams] gives what the scalar revision gave. *)
Theorem stringify_agrees_with_scalar_revision (search : Url.UrlSearchParams)
    (params : SearchParams) :
  (forall key, scalar (get params key) = true) ->
  stringifySearchParams search params
  = stringifySearchParamsScalar search params.
Proof.
  intros Hscalar. unfold stringifySearchParams, stringifySearchParamsScalar.
  f_equal. unfold stringifyEntries.
  generalize (sort (keys params)). intros ks. revert search.
  induction ks as [|k ks IH]; intros search; simpl; [done|].
  rewrite IH. f_equal. unfold stringifyStep, stringifyStepScalar.
  specialize (Hscalar k). by destruct (get params k) as [|[|c s]|vs].
Qed.

Lemma stringify_agrees_with_scalar_revision_witness :
  stringifySearchParamsScalar [("a", "0"); ("z", "1")]
    [("b", Str "2"); ("a", Str "9"); ("c", Undefined)]
  = "a=9&z=1&b=2".
Proof.
  rewrite <- stringify_agrees_with_scalar_revision; [reflexivity|].
  intros key. cbn [get].
  destruct (String.eqb "b" key); [reflexivity|].
  destruct (String.eqb "a" key); [reflexivity|].
  destruct (String.eqb "c" key); reflexivity.
Defined.

(** X22. On maps without list values, and when every key of the new map
    is a key of the merged map or a name [Object.prototype] does not
    have, the comparison by string conversion selects the keys that the
    scalar revision's [!==] selected: the two revisions publish the same
    delta.  (Under a name of [Object.prototype] that the merged map lacks
    the two can part: a new value spelled as the inherited member's text
    is skipped by the string comparison and recorded by [!==].) *)
Theorem delta_agrees_with_scalar_revision (newSearchParams current : SearchParams) :
  (forall key, scalar (get newSearchParams key) = true) ->
  (forall key, scalar (get current key) = true) ->
  (forall key, has newSearchParams key = true ->
     has current key = true \/ prototypeMember key = None) ->
  computePending newSearchParams current
  = computePendingScalar newSearchParams current.
Proof.
  intros Hnew Hcur Hown. unfold computePending, computePendingScalar.
  assert (Hks : forall key, key ∈ keys newSearchParams ->
                  has newSearchParams key = true)
    by (intros key; by rewrite has_elem_of).
  revert Hks. generalize (keys newSearchParams). intros ks.
  generalize (@nil (string * ParamValue)). intros acc. revert acc.
  induction ks as [|k ks IH]; intros acc Hks; simpl; [done|].
  rewrite IH by (intros key Hin; apply Hks; by right). f_equal.
  unfold pendingStep, pendingStepScalar.
  rewrite (read_plain current k) by (apply Hown, Hks; left). simpl.
  specialize (Hnew k). specialize (Hcur k).
  destruct (decide (optToString (get newSearchParams k)
                    = optToString (get current k))) as [Heq|Hne];
    destruct (decide (Plain (get newSearchParams k) = Plain (get current k)))
      as [Heq'|Hne']; try done.
  - exfalso. apply Hne'. f_equal.
    destruct (get newSearchParams k), (get current k); simpl in *; congruence.
  - exfalso. apply Hne. by injection Heq' as ->.
Qed.

Lemma delta_agrees_with_scalar_revision_witness :
  computePendingScalar [("from", Str "x"); ("to", Undefined)]
    [("from", Str "p"); ("to", Str "q")]
  = [("from", Str "x"); ("to", Undefined)]
  /\ computePending [("valueOf", Str "function valueOf() { [native code] }")] []
     = []
  /\ computePendingScalar
       [("valueOf", Str "function valueOf() { [native code] }")] []
     = [("valueOf", Str "function valueOf() { [native code] }")].
Proof.
  split; [|split; reflexivity].
  rewrite <- delta_agrees_with_scalar_revision; [reflexivity| | |].
  - intros key; cbn [get].
    (destruct (String.eqb "from" key); [reflexivity|]).
    destruct (String.eqb "to" key); reflexivity.
  - intros key; cbn [get].
    (destruct (String.eqb "from" key); [reflexivity|]).
    destruct (String.eqb "to" key); reflexivity.
  - intros key Hkey. left. exact Hkey.
Defined.

(** X23. The first revision of [CacheRSC] is the present one with
    [suspendOnTransition] on and [isPending] computed from the store: the
    props added since did not change what a gate does by default. *)
Theorem first_revision_is_default_gate (props : ResponsiveSuspenseProps)
    (childrenCache : gmap string ReactNode) (w : World) :
  rsSuspendOnTransition props <> Some false ->
  ResponsiveSuspense props childrenCache w
  = CacheRSCFirst (rsSearchParamsUsed props) (rsChildren props)
      (useCacheKey (responsiveSearchParams w) (rsSearchParamsUsed props))
      childrenCache w.
Proof.
  intros Hdefault.
  assert (Hon : default true (rsSuspendOnTransition props) = true).
  { by destruct (rsSuspendOnTransition props) as [[|]|]. }
  unfold ResponsiveSuspense, CacheRSCFirst, CacheRSC. simpl. rewrite Hon.
  unfold useIsSearchParamsPending.
  destruct (fields <$> Store.getValue (pendingSearchParamsStore w))
    as [pending|]; simpl; [|done].
  by destruct (existsb _ _).
Qed.

Lemma first_revision_is_default_gate_witness :
  let env := {| pathname := "/list"; search := []; replaceRaises := false |} in
  let w := fst (setResponsiveSearchParams env (Value [("a", Str "1")]) (mount [])) in
  CacheRSCFirst ["a"] (NodeElement 7) "a=1" ∅ w
  = ResponsiveSuspense
      {| rsSearchParamsUsed := ["a"]; rsChildren := NodeElement 7;
         rsSuspendOnTransition := None |} ∅ w
  /\ fst (fst (CacheRSCFirst ["a"] (NodeElement 7) "a=1" ∅ w)) = Throws 0.
Proof.
  intros env w. split; [|reflexivity].
  rewrite (first_revision_is_default_gate
             {| rsSearchParamsUsed := ["a"]; rsChildren := NodeElement 7;
                rsSuspendOnTransition := None |} ∅ w); [reflexivity|done].
Defined.

(** ** The visited key once the URL shows the map *)

(** X24. For a map without list values the serialization is stable: once
    the URL holds the pairs that were serialized, serializing the same map
    again gives the same list, hence the same visited key.  (For a list
    value it does not: its elements are appended again.) *)
Theorem visited_key_stable_without_lists (search : Url.UrlSearchParams)
    (params : SearchParams) :
  wf params ->
  (forall key, scalar (get params key) = true) ->
  stringifyEntries (stringifyEntries search params) params
  = stringifyEntries search params
  /\ stringifySearchParams (stringifyEntries search params) params
     = stringifySearchParams search params.
Proof.
  intros Hwf Hscalar.
  assert (Hstable : stringifyEntries (stringifyEntries search params) params
                    = stringifyEntries search params).
  { assert (Hstep : forall key,
              stringifyStep params (stringifyEntries search params) key
              = stringifyEntries search params).
    { intros key. unfold stringifyStep at 1.
      specialize (Hscalar key).
      destruct (get params key) as [|[|c s]|vs] eqn:Hget; try done. simpl.
      apply set_same. by apply entries_string_once. }
    unfold stringifyEntries at 1. generalize (sort (keys params)). intros ks.
    induction ks as [|k ks IH]; simpl; [done|]. by rewrite Hstep. }
  split; [done|]. unfold stringifySearchParams. by rewrite Hstable.
Qed.

Lemma visited_key_stable_without_lists_witness :
  stringifyEntries [("a", "9"); ("z", "1"); ("b", "2")]
    [("b", Str "2"); ("a", Str "9"); ("c", Undefined)]
  = [("a", "9"); ("z", "1"); ("b", "2")]
  /\ stringifyEntries [("tag", "x")] [("tag", Arr ["x"])]
     = [("tag", "x"); ("tag", "x")].
Proof.
  split; [|reflexivity].
  destruct (visited_key_stable_without_lists [("a", "0"); ("z", "1")]
              [("b", Str "2"); ("a", Str "9"); ("c", Undefined)]) as [Hstable _].
  - by apply (bool_decide_unpack (NoDup _)).
  - intros key. cbn [get].
    destruct (String.eqb "b" key); [reflexivity|].
    destruct (String.eqb "a" key); [reflexivity|].
    destruct (String.eqb "c" key); reflexivity.
  - exact Hstable.
Defined.

(** ** From the setter to the gate *)

(** X25. After the setter has taken a combination not visited before,
    with a new map that has no key [__proto__], a gate is pending exactly
    when one of its declared names either is a key of the new map whose
    string form differs from what the merged map captured by the setter
    reads under it and whose new value is truthy, or is not recorded in
    the delta and names a member of [Object.prototype], which every delta
    inherits.  A declared name whose new value is [undefined] or empty
    does not make the gate pending. *)
Theorem gate_pending_after_set (captured : SearchParams) (env : Browser)
    (action : SetStateAction) (w : World) (searchParamNames : list string) :
  let newSearchParams := resolveAction action captured in
  let w' := fst (setResponsiveSearchParamsFrom captured env action w) in
  reachable w ->
  stringifySearchParams (search env) newSearchParams ∉ visitedSearchParams w ->
  has newSearchParams "__proto__" = false ->
  useIsSearchParamsPending
    (fields <$> Store.getValue (pendingSearchParamsStore w')) searchParamNames
  = true
  <-> exists key,
        key ∈ searchParamNames
        /\ ((has newSearchParams key = true
             /\ optToString (get newSearchParams key)
                <> readOptToString (read captured key)
             /\ truthy (get newSearchParams key) = true)
            \/ (~ (has newSearchParams key = true
                   /\ optToString (get newSearchParams key)
                      <> readOptToString (read captured key))
                /\ prototypeMember key <> None)).
Proof.
  intros newSearchParams w' Hreach Hnew Hproto.
  destruct (setterFrom_new captured env action w (reachable_inv w Hreach) Hnew)
    as (Hs & _).
  fold newSearchParams w' in Hs. rewrite Hs. simpl.
  assert (Hrec : forall key,
            has (computePending newSearchParams captured) key = true
            <-> has newSearchParams key = true
                /\ optToString (get newSearchParams key)
                   <> readOptToString (read captured key)).
  { intros key.
    destruct (computePending_spec newSearchParams captured key) as [Hiff _].
    rewrite Hiff. unfold recorded, differs. split; [tauto|].
    intros [Hk Hd]. split; [done|]. split; [done|].
    intros ->. by rewrite Hproto in Hk. }
  rewrite existsb_exists. split.
  - intros (key & Hin & Ht). exists key.
    rewrite <- list_elem_of_In in Hin. split; [done|].
    unfold read in Ht.
    destruct (has (computePending newSearchParams captured) key) eqn:Hhas.
    + left.
      destruct (computePending_spec newSearchParams captured key) as [_ Hget].
      simpl in Ht. rewrite Hget in Ht by done.
      apply Hrec in Hhas as [Hk Hd]. done.
    + right. split.
      * intros Hd. apply Hrec in Hd. by rewrite Hd in Hhas.
      * intros Hnone. rewrite Hnone in Ht. done.
  - intros (key & Hin & Hcase). exists key.
    rewrite <- list_elem_of_In. split; [done|]. unfold read.
    destruct Hcase as [(Hk & Hd & Ht)|[Hno Hmember]].
    + assert (Hhas : has (computePending newSearchParams captured) key = true)
        by (by apply Hrec).
      destruct (computePending_spec newSearchParams captured key) as [_ Hget].
      rewrite Hhas. simpl. by rewrite Hget.
    + destruct (has (computePending newSearchParams captured) key) eqn:Hhas.
      * by apply Hrec in Hhas.
      * by destruct (prototypeMember key).
Qed.

Lemma gate_pending_after_set_witness :
  let env := {| pathname := "/list"; search := []; replaceRaises := false |} in
  let w := mount [("from", Str "p"); ("to", Str "q")] in
  let action := Value [("from", Str "x"); ("to", Undefined)] in
  let w' := fst (setResponsiveSearchParamsFrom (responsiveSearchParams w)
                   env action w) in
  useIsSearchParamsPending
    (fields <$> Store.getValue (pendingSearchParamsStore w')) ["from"] = true
  /\ useIsSearchParamsPending
       (fields <$> Store.getValue (pendingSearchParamsStore w')) ["to"] = false
  /\ useIsSearchParamsPending
       (fields <$> Store.getValue (pendingSearchParamsStore w')) ["valueOf"]
     = true.
Proof.
  intros env w action w'. split; [|split; reflexivity].
  apply (gate_pending_after_set (responsiveSearchParams w) env action w ["from"]).
  - apply reach_mount.
  - vm_compute. set_solver.
  - reflexivity.
  - exists "from". split; [left|]. left. split; [reflexivity|].
    split; [discriminate|reflexivity].
Defined.
